(** * audio-noise-floor-augment: noise-floor estimation and amplitude jitter

    A shallow embedding of [AudioPreprocessor] (src/__init__.py) and the
    properties of its two numeric stages, [calculate_noise_floor] and
    [adjust_amplitude].

    Modelling conventions.
    - A sample is a finite float64; it is modelled by an exact rational
      ([Q]).  Rounding, overflow and underflow of the arithmetic on samples
      are not modelled: [+], [-], [*] are exact.  Python's [==], [<], [>] on
      floats are [Qeq], [Qlt].
    - The products that [int] truncates (lines 37-38) are rounded as float64
      rounds them, since truncation turns a rounding error into a whole
      sample.
    - The one division of the program (the transition factor) can divide by
      zero.  numpy does not raise there: it returns [inf], [-inf] or [nan],
      according to the signs of the numerator and of the zero.  The
      quotient, and everything computed from it, is therefore a [float_val],
      a rational extended with these three values, and the sign of a zero
      denominator is computed beside it, from the signs of its factors (an
      argument that is itself -0.0 is outside the model).
    - Python exceptions are the [Raise] results of the [pyresult] monad.
    - [random.random()] is an oracle [rng : nat -> Q]; the number of draws
      made so far is threaded as state. *)

From Stdlib Require Import QArith Qabs Qminmax Qround Qpower ZArith Lia Lqa.
From stdpp Require Import base list.

Local Open Scope Q_scope.

(** ** Python results *)

Inductive pyexn : Type :=
| ValueError
| IndexError.

Inductive pyresult (A : Type) : Type :=
| Ok (a : A)
| Raise (e : pyexn).

Arguments Ok {A} a.
Arguments Raise {A} e.

#[global] Instance pyresult_ret : MRet pyresult := fun _ a => Ok a.
#[global] Instance pyresult_bind : MBind pyresult := fun _ _ f m =>
  match m with
  | Ok a => f a
  | Raise e => Raise e
  end.

(** ** Python and numpy primitives used by the source *)

Definition Qlt_bool (x y : Q) : bool := negb (Qle_bool y x).

(** [int(x)] on a float: truncation toward zero. *)
Definition py_int (x : Q) : Z := Z.quot (Qnum x) (Zpos (Qden x)).

(** Number of elements of [range(start, stop, step)], [step <> 0]. *)
Definition range_len (start stop step : Z) : nat :=
  if (0 <? step)%Z then
    if (start <? stop)%Z then Z.to_nat ((stop - start - 1) / step + 1) else O
  else
    if (stop <? start)%Z then Z.to_nat ((start - stop - 1) / (- step) + 1) else O.

(** [range(start, stop, step)]; a zero step raises [ValueError]. *)
Definition py_range (start stop step : Z) : pyresult (list Z) :=
  if (step =? 0)%Z then Raise ValueError
  else Ok ((fun k => (start + Z.of_nat k * step)%Z)
             <$> seq 0 (range_len start stop step)).

(** Bound of a slice, as Python normalises it: a negative bound counts from
    the end, and both are clipped to [0, len]. *)
Definition slice_index (len x : Z) : Z :=
  if (x <? 0)%Z then Z.max (x + len) 0 else Z.min x len.

(** [data[lo:hi]]. *)
Definition py_slice {A} (data : list A) (lo hi : Z) : list A :=
  let len := Z.of_nat (length data) in
  let lo' := slice_index len lo in
  let hi' := slice_index len hi in
  take (Z.to_nat (hi' - lo')) (drop (Z.to_nat lo') data).

Definition np_abs (data : list Q) : list Q := Qabs <$> data.

Definition np_maximum (a b : Q) : Q := if Qle_bool a b then b else a.

(** [np.max] raises [ValueError] on a zero-size array. *)
Definition np_max (data : list Q) : pyresult Q :=
  match data with
  | [] => Raise ValueError
  | x :: xs => Ok (foldl np_maximum x xs)
  end.

(** The built-in [min] of a non-empty list keeps the first smallest item. *)
Definition py_min_step (a b : Q) : Q := if Qlt_bool b a then b else a.

Definition py_min_default (l : list Q) (default : Q) : Q :=
  match l with
  | [] => default
  | x :: xs => foldl py_min_step x xs
  end.

(** ** Configuration *)

Record AudioPreprocessor : Type := {
  win_nfloor_s : Q;
  win_skip_s : Q;
  nfloor_max_frac : Q;
  smooth_amp_frac : Q;
  amplitude_adjust_range : Q * Q
}.

Definition defopts : AudioPreprocessor := {|
  win_nfloor_s := 0.05;
  win_skip_s := 0.02;
  nfloor_max_frac := 0.1;
  smooth_amp_frac := 0.1;
  amplitude_adjust_range := (0.8, 1.2)
|}.

(** ** calculate_noise_floor *)

(** The integer nearest to [q], ties to even.  Lines 37-38 truncate a float64
    product, and truncation does not forgive the rounding of the product
    (0.009 * 48000 is 431.99999999999994), so the product is rounded as
    float64 rounds it: to the nearest number with a significand of 53 bits,
    ties to even.  Overflow to inf is not modelled: where it matters the
    operands are taken below 2^1023 ([no_overflow]). *)
Definition round_half_even (q : Q) : Z :=
  let f := Qfloor q in
  match Qcompare (q - inject_Z f) (1 # 2) with
  | Lt => f
  | Gt => (f + 1)%Z
  | Eq => if Z.even f then f else (f + 1)%Z
  end.

Definition pow2 (e : Z) : Q := 2 ^ e.

(** [floor (log2 |q|)], for [q] other than 0. *)
Definition Qlog2 (q : Q) : Z :=
  let l := (Z.log2 (Z.abs (Qnum q)) - Z.log2 (Zpos (Qden q)))%Z in
  if Qle_bool (pow2 l) (Qabs q) then l else (l - 1)%Z.

(** Exponent of the last bit of the significand of the float64 nearest to
    [q]; -1074 for the subnormal numbers. *)
Definition float64_exponent (q : Q) : Z := Z.max (Qlog2 q - 52) (-1074).

(** The float64 nearest to [q]. *)
Definition round64 (q : Q) : Q :=
  if Qeq_bool q 0 then 0
  else inject_Z (round_half_even (q / pow2 (float64_exponent q)))
       * pow2 (float64_exponent q).

(** [x * n] for a float [x] and an int [n]: the int is converted to a
    float, and the product of the two floats is rounded. *)
Definition float_product (x : Q) (n : Z) : Q :=
  round64 (round64 x * round64 (inject_Z n)).

Definition window_size (self : AudioPreprocessor) (sample_rate : Z) : Z :=
  py_int (float_product (win_nfloor_s self) sample_rate).

Definition skip_size (self : AudioPreprocessor) (sample_rate : Z) : Z :=
  py_int (float_product (win_skip_s self) sample_rate).

(** The stopping threshold of line 48, from the windows accepted so far. *)
Definition threshold (self : AudioPreprocessor) (max_amp : Q)
    (nfloor_amplitudes : list Q) : Q :=
  nfloor_max_frac self * (max_amp - py_min_default nfloor_amplitudes max_amp).

(** State of the scan: the accepted window maxima, as in the source; the
    offsets whose loop body has been entered (ghost, in order); and whether
    the loop was left through [break]. *)
Record scan_state : Type := {
  nfloor_amplitudes : list Q;
  visited : list Z;
  halted : bool
}.

Definition scan_init : scan_state :=
  {| nfloor_amplitudes := []; visited := []; halted := false |}.

(** The [for] loop of lines 43-51 over the remaining offsets. *)
Fixpoint scan (self : AudioPreprocessor) (data : list Q) (wsize : Z)
    (max_amp : Q) (offsets : list Z) (st : scan_state) : pyresult scan_state :=
  match offsets with
  | [] => Ok st
  | i :: rest =>
      window_max ← np_max (np_abs (py_slice data i (i + wsize)));
      if Qlt_bool (threshold self max_amp (nfloor_amplitudes st)) window_max
      then Ok {| nfloor_amplitudes := nfloor_amplitudes st;
                 visited := visited st ++ [i];
                 halted := true |}
      else scan self data wsize max_amp rest
             {| nfloor_amplitudes := nfloor_amplitudes st ++ [window_max];
                visited := visited st ++ [i];
                halted := false |}
  end.

(** The loop of [calculate_noise_floor], with its final state exposed. *)
Definition noise_floor_scan (self : AudioPreprocessor) (data : list Q)
    (sample_rate : Z) : pyresult (Q * scan_state) :=
  let wsize := window_size self sample_rate in
  let skip := skip_size self sample_rate in
  max_amp ← np_max (np_abs data);
  offsets ← py_range 0 (Z.of_nat (length data) - wsize) skip;
  st ← scan self data wsize max_amp offsets scan_init;
  mret (max_amp, st).

Definition calculate_noise_floor (self : AudioPreprocessor) (data : list Q)
    (sample_rate : Z) : pyresult (Q * Q) :=
  '(max_amp, st) ← noise_floor_scan self data sample_rate;
  let nfloor_amp :=
    match nfloor_amplitudes st with
    | [] => 0
    | _ :: _ => py_min_default (nfloor_amplitudes st) 0
    end in
  mret (nfloor_amp, max_amp).

(** ** numpy float values: the result of a division *)

Inductive float_val : Type :=
| Fin (q : Q)
| PInf
| NInf
| NaN.

(** [x / y] on numpy floats, for a divisor whose zero is +0.0: a zero
    divisor gives an infinity of the sign of [x], or [nan] for [0 / 0]
    (numpy warns, it does not raise). *)
Definition np_div (x y : Q) : float_val :=
  if Qeq_bool y 0 then
    if Qlt_bool 0 x then PInf else if Qlt_bool x 0 then NInf else NaN
  else Fin (x / y).

(** [a < b]; every comparison with [nan] is false. *)
Definition float_ltb (a b : float_val) : bool :=
  match a, b with
  | NaN, _ | _, NaN => false
  | Fin x, Fin y => Qlt_bool x y
  | NInf, NInf => false
  | NInf, _ => true
  | _, PInf => match a with PInf => false | _ => true end
  | _, _ => false
  end.

(** The built-ins [min(a, b)] and [max(a, b)]: the first argument is kept
    unless the second is strictly smaller (larger). *)
Definition py_min (a b : float_val) : float_val := if float_ltb b a then b else a.
Definition py_max (a b : float_val) : float_val := if float_ltb a b then b else a.

Definition float_neg (a : float_val) : float_val :=
  match a with
  | Fin x => Fin (- x)
  | PInf => NInf
  | NInf => PInf
  | NaN => NaN
  end.

Definition float_add (a b : float_val) : float_val :=
  match a, b with
  | NaN, _ | _, NaN => NaN
  | Fin x, Fin y => Fin (x + y)
  | PInf, NInf | NInf, PInf => NaN
  | PInf, _ | _, PInf => PInf
  | NInf, _ | _, NInf => NInf
  end.

Definition float_sub (a b : float_val) : float_val := float_add a (float_neg b).

(** Sign of a float, as the comparison of 0 with it: [Lt] for a positive
    value, [Gt] for a negative one, [Eq] for zero. *)
Definition float_sign (a : float_val) : comparison :=
  match a with
  | Fin x => 0 ?= x
  | PInf => Lt
  | NInf => Gt
  | NaN => Eq
  end.

(** The product of two finite values is exact: neither its rounding nor its
    overflow to inf is modelled, and a statement that depends on the product
    staying finite bounds its factors. *)
Definition float_mul (a b : float_val) : float_val :=
  match a, b with
  | NaN, _ | _, NaN => NaN
  | Fin x, Fin y => Fin (x * y)
  | _, _ =>
      match float_sign a, float_sign b with
      | Eq, _ | _, Eq => NaN
      | Lt, Lt | Gt, Gt => PInf
      | _, _ => NInf
      end
  end.

(** ** adjust_amplitude *)

(** A float64 zero has a sign, which a rational has not, and the sign
    decides which infinity a division by zero gives.  The product [a * b] of
    two floats that are not -0.0 is -0.0 when one is zero and the other is
    negative.  (The difference max_amp - nfloor_amp is never -0.0: [x - x]
    is +0.0.  A smooth_amp_frac of -0.0 is not modelled.) *)
Definition negative_zero_product (a b : Q) : bool :=
  (Qeq_bool a 0 && Qlt_bool b 0) || (Qlt_bool a 0 && Qeq_bool b 0).

(** [x / y] where a zero [y] is -0.0 when [negative_zero] is set: the
    infinity then has the opposite sign. *)
Definition np_div_signed (x y : Q) (negative_zero : bool) : float_val :=
  if Qeq_bool y 0 && negative_zero then float_neg (np_div x y) else np_div x y.

(** Lines 66-69: [max(0, min(1, (abs_val - nfloor_amp) /
    (smooth_amp_frac * (max_amp - nfloor_amp))))]; first the quotient. *)
Definition transition_quotient (self : AudioPreprocessor)
    (abs_val nfloor_amp max_amp : Q) : float_val :=
  np_div_signed (abs_val - nfloor_amp)
    (smooth_amp_frac self * (max_amp - nfloor_amp))
    (negative_zero_product (smooth_amp_frac self) (max_amp - nfloor_amp)).

Definition smooth_transition_factor (self : AudioPreprocessor)
    (abs_val nfloor_amp max_amp : Q) : float_val :=
  py_max (Fin 0) (py_min (Fin 1) (transition_quotient self abs_val nfloor_amp max_amp)).

(** [random.uniform(a, b)] is [a + (b - a) * random()]. *)
Definition uniform (u : Q) (range : Q * Q) : Q :=
  fst range + (snd range - fst range) * u.

(** Line 73. *)
Definition amplitude_adjustment (smooth_transition_factor : float_val)
    (random_adjust : Q) : float_val :=
  float_add (float_sub (Fin 1) smooth_transition_factor)
            (float_mul smooth_transition_factor (Fin random_adjust)).

(** State of the transform: the output array and the count of random draws. *)
Record adjust_state : Type := {
  adjusted_data : list float_val;
  draws : nat
}.

(** Body of the loop of lines 61-76 at index [i]. *)
Definition adjust_body (self : AudioPreprocessor) (rng : nat -> Q)
    (data : list Q) (nfloor_amp max_amp : Q) (i : nat) (st : adjust_state)
    : pyresult adjust_state :=
  match data !! i with
  | None => Raise IndexError
  | Some x =>
      let abs_val := Qabs x in
      if Qlt_bool nfloor_amp abs_val then
        let t := smooth_transition_factor self abs_val nfloor_amp max_amp in
        let random_adjust := uniform (rng (draws st)) (amplitude_adjust_range self) in
        let adj := amplitude_adjustment t random_adjust in
        Ok {| adjusted_data := <[i := float_mul (Fin x) adj]> (adjusted_data st);
              draws := S (draws st) |}
      else Ok st
  end.

Fixpoint adjust_loop (self : AudioPreprocessor) (rng : nat -> Q)
    (data : list Q) (nfloor_amp max_amp : Q) (indices : list nat)
    (st : adjust_state) : pyresult adjust_state :=
  match indices with
  | [] => Ok st
  | i :: rest =>
      st' ← adjust_body self rng data nfloor_amp max_amp i st;
      adjust_loop self rng data nfloor_amp max_amp rest st'
  end.

(** [adjust_amplitude]; [k] is the number of draws made before the call. *)
Definition adjust_amplitude (self : AudioPreprocessor) (rng : nat -> Q) (k : nat)
    (data : list Q) (nfloor_amp max_amp : Q) : pyresult adjust_state :=
  adjust_loop self rng data nfloor_amp max_amp (seq 0 (length data))
    {| adjusted_data := Fin <$> data; draws := k |}.

(** ** Vocabulary of the properties *)

(** Valid inputs: a non-empty signal and positive window and skip sizes. *)
Definition valid_input (self : AudioPreprocessor) (data : list Q)
    (sample_rate : Z) : Prop :=
  data <> [] /\ (1 <= window_size self sample_rate)%Z /\
  (1 <= skip_size self sample_rate)%Z.

(** Offsets at which a whole window of [w] samples lies in the data. *)
Definition window_fits (data : list Q) (w i : Z) : Prop :=
  (0 <= i)%Z /\ (i + w <= Z.of_nat (length data))%Z.

(** The derivation of the window parameters as the specification words it:
    [n] is [x] rounded to the nearest integer (whichever way ties are
    broken). *)
Definition rounds_to_nearest (x : Q) (n : Z) : Prop :=
  Qabs (x - inject_Z n) <= 1 # 2.

(** What [int] computes: [n] is [x] with its fractional part dropped. *)
Definition truncates_toward_zero (x : Q) (n : Z) : Prop :=
  Qabs (inject_Z n) <= Qabs x /\ Qabs x < Qabs (inject_Z n) + 1 /\
  (0 <= x -> (0 <= n)%Z) /\ (x <= 0 -> (n <= 0)%Z).

(** A sample qualifies when its absolute value is above the floor (the test
    of line 65). *)
Definition qualifies (nfloor_amp s : Q) : bool := Qlt_bool nfloor_amp (Qabs s).

(** The value written at line 76 for a qualifying sample [s], with the
    [d]-th draw of the random source. *)
Definition jittered (self : AudioPreprocessor) (rng : nat -> Q)
    (nfloor_amp max_amp s : Q) (d : nat) : float_val :=
  float_mul (Fin s)
    (amplitude_adjustment
       (smooth_transition_factor self (Qabs s) nfloor_amp max_amp)
       (uniform (rng d) (amplitude_adjust_range self))).

(** Test signals.  1000 samples: 200 of amplitude 0.01, then 800 of
    amplitude 0.9. *)
Definition quiet_then_loud : list Q := replicate 200 0.01 ++ replicate 800 0.9.

(** 20 samples: a quiet lead-in of 10, then a loud part. *)
Definition short_lead_in : list Q := replicate 10 0.01 ++ replicate 10 0.9.

(** Maximum of the window that starts at offset [i] (line 45). *)
Definition window_max_at (data : list Q) (w i : Z) : pyresult Q :=
  np_max (np_abs (py_slice data i (i + w))).

(** What holds of the state of the scan at every iteration: one offset is
    entered per accepted window, plus the one that halted the scan; every
    accepted value is the maximum of the window at its offset and was, when
    tested, no greater than the threshold of the values accepted before it;
    the halting window exceeded the threshold of all accepted values. *)
Definition scan_inv (self : AudioPreprocessor) (data : list Q) (w : Z)
    (max_amp : Q) (st : scan_state) : Prop :=
  length (visited st)
    = (length (nfloor_amplitudes st) + if halted st then 1 else 0)%nat /\
  (forall n x, nfloor_amplitudes st !! n = Some x ->
     exists i, visited st !! n = Some i /\ window_max_at data w i = Ok x /\
               x <= threshold self max_amp (take n (nfloor_amplitudes st))) /\
  (halted st = true ->
     exists i x, last (visited st) = Some i /\ window_max_at data w i = Ok x /\
                 threshold self max_amp (nfloor_amplitudes st) < x).

(** Number of samples of [l] that qualify, that is, of draws the transform
    makes while it runs over [l]. *)
Definition qualifying (nfloor_amp : Q) (l : list Q) : nat :=
  length (List.filter (qualifies nfloor_amp) l).

(** ** load_audio *)

(** The file is what [wavfile.read] returns for it: the sample rate and,
    for 16-bit mono PCM, a one-dimensional int16 array. *)
Definition is_int16 (x : Z) : Prop := (-32768 <= x <= 32767)%Z.

(** [np.abs] of an int16 is an int16: -32768, which has no positive
    counterpart in the type, comes back unchanged. *)
Definition np_abs_int16 (x : Z) : Z :=
  if (x =? -32768)%Z then (-32768)%Z else Z.abs x.

(** [np.max] of an integer array. *)
Definition np_max_int (data : list Z) : pyresult Z :=
  match data with
  | [] => Raise ValueError
  | x :: xs => Ok (foldl Z.max x xs)
  end.

(** Lines 31-33: [data / np.max(np.abs(data))], a float64 array. *)
Definition load_audio (file : Z * list Z) : pyresult (Z * list float_val) :=
  let '(sample_rate, data) := file in
  peak ← np_max_int (np_abs_int16 <$> data);
  mret (sample_rate, (fun x => np_div (inject_Z x) (inject_Z peak)) <$> data).

(** ** preprocess *)

(** [np.int16] of a float (line 89) drops the fraction.  For a value beyond
    the int16 range, and for inf and nan, the stored integer is not
    determined by the source: [None]. *)
Definition np_int16 (v : float_val) : option Z :=
  match v with
  | Fin q =>
      let n := py_int q in
      if ((-32768 <=? n) && (n <=? 32767))%Z then Some n else None
  | _ => None
  end.

(** The samples of a float array whose values are all finite. *)
Fixpoint finite_samples (data : list float_val) : option (list Q) :=
  match data with
  | [] => Some []
  | Fin q :: rest =>
      match finite_samples rest with
      | Some l => Some (q :: l)
      | None => None
      end
  | _ :: _ => None
  end.

(** What [preprocess] hands to [wavfile.write] and what it returns. *)
Record preprocess_result : Type := {
  written_rate : Z;
  written_data : list (option Z);
  returned : Q * Q
}.

(** Lines 82-90.  The two stages are modelled on finite samples: when the
    normalised array holds inf or nan (a silent file), the run is outside
    the model, [None]. *)
Definition preprocess (self : AudioPreprocessor) (rng : nat -> Q) (k : nat)
    (file : Z * list Z) : option (pyresult preprocess_result) :=
  match load_audio file with
  | Raise e => Some (Raise e)
  | Ok (sample_rate, data) =>
      match finite_samples data with
      | None => None
      | Some samples =>
          Some ('(nfloor_amp, max_amp) ←
                  calculate_noise_floor self samples sample_rate;
                st ← adjust_amplitude self rng k samples nfloor_amp max_amp;
                mret {| written_rate := sample_rate;
                        written_data :=
                          (fun v => np_int16 (float_mul v (Fin 32767)))
                            <$> adjusted_data st;
                        returned := (nfloor_amp, max_amp) |})
      end
  end.

(** An int16 array that is not silent and does not hold -32768. *)
Definition clean_pcm (raw : list Z) : Prop :=
  Forall (fun x => (-32767 <= x <= 32767)%Z) raw /\ Exists (fun x => x <> 0%Z) raw.

(** Number of non-zero samples of a raw array. *)
Definition nonzero_count (l : list Z) : nat :=
  length (List.filter (fun x => negb (x =? 0)%Z) l).

(** The operands of a float64 product [x * n] for which neither the
    conversion of the int nor the product overflows. *)
Definition no_overflow (x : Q) (n : Z) : Prop :=
  Qabs (inject_Z n) < pow2 1023 /\ Qabs x * Qabs (inject_Z n) < pow2 1023.

(** * Properties *)

(** ** Comparisons and maxima *)

Lemma Qlt_bool_iff (x y : Q) : Qlt_bool x y = true <-> x < y.
Proof.
  unfold Qlt_bool. rewrite negb_true_iff.
  destruct (Qle_bool y x) eqn:E.
  - apply Qle_bool_iff in E. split; [discriminate | intros H; lra].
  - split; [intros _ | reflexivity].
    apply Qnot_le_lt. intros H. apply Qle_bool_iff in H. congruence.
Qed.

Lemma Qlt_bool_false_iff (x y : Q) : Qlt_bool x y = false <-> y <= x.
Proof.
  unfold Qlt_bool. rewrite negb_false_iff. apply Qle_bool_iff.
Qed.

Lemma np_maximum_spec (a b : Q) :
  a <= np_maximum a b /\ b <= np_maximum a b /\
  (np_maximum a b = a \/ np_maximum a b = b).
Proof.
  unfold np_maximum. destruct (Qle_bool a b) eqn:E.
  - apply Qle_bool_iff in E. repeat split; [lra | lra | now right].
  - assert (b < a) by (apply Qlt_bool_iff; unfold Qlt_bool; now rewrite E).
    repeat split; [lra | lra | now left].
Qed.

Lemma foldl_np_maximum_spec (xs : list Q) (x : Q) :
  x <= foldl np_maximum x xs /\
  Forall (fun y => y <= foldl np_maximum x xs) xs /\
  foldl np_maximum x xs ∈ x :: xs.
Proof.
  revert x. induction xs as [|y ys IH]; intros x; simpl.
  - repeat split; [lra | constructor | left].
  - destruct (IH (np_maximum x y)) as (Hle & Hall & Hin).
    destruct (np_maximum_spec x y) as (Hx & Hy & Hsel).
    repeat split.
    + lra.
    + constructor; [lra | exact Hall].
    + apply elem_of_cons in Hin as [Hin | Hin].
      * rewrite Hin. destruct Hsel as [-> | ->]; [left | right; left].
      * right. right. exact Hin.
Qed.

(** [np.max(np.abs(l))] of a non-empty array: it is returned, it is the
    absolute value of a sample, and it bounds every sample. *)
Lemma np_max_abs_spec (l : list Q) :
  l <> [] ->
  exists m, np_max (np_abs l) = Ok m /\ 0 <= m /\
            (exists x, x ∈ l /\ m = Qabs x) /\
            Forall (fun x => Qabs x <= m) l.
Proof.
  destruct l as [|x xs]; [congruence | intros _].
  destruct (foldl_np_maximum_spec (Qabs <$> xs) (Qabs x)) as (Hle & Hall & Hin).
  exists (foldl np_maximum (Qabs x) (Qabs <$> xs)).
  split; [reflexivity |]. split; [| split].
  - pose proof (Qabs_nonneg x). lra.
  - apply elem_of_cons in Hin as [Hin | Hin].
    + exists x. split; [left | exact Hin].
    + apply list_elem_of_fmap in Hin as (y & -> & Hy).
      exists y. split; [right; exact Hy | reflexivity].
  - constructor; [exact Hle |].
    rewrite Forall_fmap in Hall. exact Hall.
Qed.

Lemma np_max_abs_nonneg (l : list Q) (m : Q) :
  np_max (np_abs l) = Ok m -> 0 <= m.
Proof.
  intros H. destruct l as [|x xs]; [discriminate |].
  destruct (np_max_abs_spec (x :: xs)) as (m' & Hm & Hpos & _); [congruence |].
  rewrite H in Hm. injection Hm as ->. exact Hpos.
Qed.

(** ** Offsets and windows *)

Lemma range_len_lt (stop step : Z) (k : nat) :
  (0 < step)%Z ->
  (k < range_len 0 stop step)%nat <-> (Z.of_nat k * step < stop)%Z.
Proof.
  intros Hstep. unfold range_len.
  destruct (Z.ltb_spec 0 step) as [_ | ?]; [| lia].
  destruct (Z.ltb_spec 0 stop) as [Hstop | Hstop].
  - rewrite Z.sub_0_r.
    pose proof (Z.div_pos (stop - 1) step ltac:(lia) Hstep) as Hq.
    pose proof (Z.mul_div_le (stop - 1) step Hstep) as Hlo.
    pose proof (Z.mul_succ_div_gt (stop - 1) step Hstep) as Hhi.
    split; intros H; nia.
  - split; intros H; [lia | nia].
Qed.

(** What [range(0, stop, step)] yields for a positive step: the multiples of
    [step] strictly below [stop]. *)
Lemma py_range_offsets (stop step : Z) :
  (0 < step)%Z ->
  exists offsets,
    py_range 0 stop step = Ok offsets /\
    forall i, i ∈ offsets <->
              exists k : nat, i = (Z.of_nat k * step)%Z /\ (i < stop)%Z.
Proof.
  intros Hstep. unfold py_range.
  destruct (Z.eqb_spec step 0) as [? | _]; [lia |].
  eexists. split; [reflexivity |]. intros i.
  rewrite list_elem_of_fmap. split.
  - intros (k & -> & Hk). apply elem_of_seq in Hk.
    exists k. split; [lia |].
    rewrite Z.add_0_l. apply range_len_lt; [exact Hstep | lia].
  - intros (k & -> & Hk). exists k. split; [lia |].
    apply elem_of_seq. apply range_len_lt in Hk; [lia | exact Hstep].
Qed.

Lemma py_slice_window {A} (data : list A) (i w : Z) :
  (0 <= i)%Z -> (0 <= w)%Z -> (i + w <= Z.of_nat (length data))%Z ->
  py_slice data i (i + w) = take (Z.to_nat w) (drop (Z.to_nat i) data).
Proof.
  intros Hi Hw Hlen. unfold py_slice, slice_index.
  destruct (Z.ltb_spec i 0) as [? | _]; [lia |].
  destruct (Z.ltb_spec (i + w) 0) as [? | _]; [lia |].
  f_equal; [lia | f_equal; lia].
Qed.

Lemma py_slice_window_length {A} (data : list A) (i w : Z) :
  (0 <= i)%Z -> (0 <= w)%Z -> (i + w <= Z.of_nat (length data))%Z ->
  length (py_slice data i (i + w)) = Z.to_nat w.
Proof.
  intros Hi Hw Hlen. rewrite py_slice_window by assumption.
  rewrite length_take, length_drop. lia.
Qed.

Lemma py_slice_subseteq {A} (data : list A) (lo hi : Z) :
  py_slice data lo hi ⊆ data.
Proof.
  unfold py_slice. intros x Hx.
  apply elem_of_take in Hx as (j & Hj & _).
  rewrite lookup_drop in Hj. eapply list_elem_of_lookup_2. exact Hj.
Qed.

(** ** The scan *)

Lemma bind_Ok_inv {A B} (m : pyresult A) (f : A -> pyresult B) (b : B) :
  (m ≫= f) = Ok b -> exists a, m = Ok a /\ f a = Ok b.
Proof.
  destruct m as [a | e]; [| discriminate]. intros H. exists a. now split.
Qed.

Ltac bind_inv H :=
  let x := fresh "x" in
  let Hx := fresh "H" x in
  apply bind_Ok_inv in H as (x & Hx & H).

Lemma window_max_returns (data : list Q) (w i : Z) :
  (1 <= w)%Z -> window_fits data w i ->
  exists m, np_max (np_abs (py_slice data i (i + w))) = Ok m.
Proof.
  intros Hw [Hi Hlen].
  destruct (np_max_abs_spec (py_slice data i (i + w))) as (m & Hm & _).
  - intros Hnil. apply (f_equal length) in Hnil.
    rewrite py_slice_window_length in Hnil by lia. simpl in Hnil. lia.
  - exists m. exact Hm.
Qed.

(** The loop returns when every offset it is given holds a whole window. *)
Lemma scan_returns (self : AudioPreprocessor) (data : list Q) (w : Z)
    (max_amp : Q) (offsets : list Z) (st : scan_state) :
  (1 <= w)%Z -> Forall (window_fits data w) offsets ->
  exists st', scan self data w max_amp offsets st = Ok st'.
Proof.
  intros Hw Hall. revert st.
  induction Hall as [|i rest Hi _ IH]; intros st; simpl.
  - now exists st.
  - destruct (window_max_returns data w i Hw Hi) as (m & ->). simpl.
    destruct (Qlt_bool _ m); [now eexists | apply IH].
Qed.

Lemma py_min_default_snoc (acc : list Q) (wm d : Q) :
  py_min_default (acc ++ [wm]) d =
  match acc with
  | [] => wm
  | _ :: _ => py_min_step (py_min_default acc d) wm
  end.
Proof.
  destruct acc as [|x xs]; [reflexivity |].
  simpl. now rewrite foldl_app.
Qed.

Lemma threshold_empty (self : AudioPreprocessor) (max_amp : Q) :
  threshold self max_amp [] == 0.
Proof. unfold threshold. simpl. ring. Qed.

(** Whatever is accepted, the smallest accepted window maximum is 0: the
    first window is tested against the threshold of the empty list, which
    is 0, so it is accepted only when it is silent. *)
Lemma scan_floor_zero (self : AudioPreprocessor) (data : list Q) (w : Z)
    (max_amp : Q) (offsets : list Z) (st st' : scan_state) :
  scan self data w max_amp offsets st = Ok st' ->
  py_min_default (nfloor_amplitudes st) 0 == 0 ->
  py_min_default (nfloor_amplitudes st') 0 == 0.
Proof.
  revert st. induction offsets as [|i rest IH]; intros st Hscan Hinv; simpl in Hscan.
  - injection Hscan as <-. exact Hinv.
  - bind_inv Hscan. rename x into wm.
    pose proof (np_max_abs_nonneg _ _ Hx) as Hwm.
    destruct (Qlt_bool _ wm) eqn:Hcmp.
    + injection Hscan as <-. exact Hinv.
    + apply IH in Hscan; [exact Hscan |]. simpl.
      rewrite py_min_default_snoc.
      apply Qlt_bool_false_iff in Hcmp.
      destruct (nfloor_amplitudes st) as [|x xs] eqn:Hacc.
      * pose proof (threshold_empty self max_amp). lra.
      * unfold py_min_step.
        destruct (Qlt_bool wm _) eqn:Hlt; [| exact Hinv].
        apply Qlt_bool_iff in Hlt. lra.
Qed.

(** The offsets entered are a prefix of the offsets given, and all of them
    when the loop is not left through [break]. *)
Lemma scan_visited (self : AudioPreprocessor) (data : list Q) (w : Z)
    (max_amp : Q) (offsets : list Z) (st st' : scan_state) :
  scan self data w max_amp offsets st = Ok st' ->
  exists pre, visited st' = visited st ++ pre /\ pre `prefix_of` offsets /\
              (halted st = false -> halted st' = false -> pre = offsets).
Proof.
  revert st. induction offsets as [|i rest IH]; intros st Hscan; simpl in Hscan.
  - injection Hscan as <-. exists []. rewrite app_nil_r. now repeat split.
  - bind_inv Hscan.
    destruct (Qlt_bool _ x).
    + injection Hscan as <-. simpl. exists [i]. repeat split.
      * now apply prefix_cons, prefix_nil.
      * discriminate.
    + apply IH in Hscan as (pre & Hv & Hpre & Hall). simpl in Hv, Hall.
      exists (i :: pre). repeat split.
      * rewrite Hv, <- app_assoc. reflexivity.
      * now apply prefix_cons.
      * intros _ Hh. now rewrite Hall.
Qed.

(** ** calculate_noise_floor on valid inputs *)

(** The scan returns on valid inputs; every offset it enters is a multiple
    of the skip whose window ends strictly before the end of the signal. *)
Lemma noise_floor_scan_returns (self : AudioPreprocessor) (data : list Q)
    (sample_rate : Z) :
  valid_input self data sample_rate ->
  exists max_amp st,
    noise_floor_scan self data sample_rate = Ok (max_amp, st) /\
    np_max (np_abs data) = Ok max_amp /\
    py_min_default (nfloor_amplitudes st) 0 == 0 /\
    forall i, i ∈ visited st ->
      (exists k : nat, i = (Z.of_nat k * skip_size self sample_rate)%Z) /\
      (i + window_size self sample_rate < Z.of_nat (length data))%Z.
Proof.
  intros (Hne & Hw & Hs). unfold noise_floor_scan.
  destruct (np_max_abs_spec data Hne) as (m & Hm & _).
  destruct (py_range_offsets
              (Z.of_nat (length data) - window_size self sample_rate)
              (skip_size self sample_rate)) as (offsets & Hr & Hoff); [lia |].
  assert (Hfit : Forall (window_fits data (window_size self sample_rate)) offsets).
  { apply Forall_forall. intros i Hi. apply Hoff in Hi as (k & -> & Hk).
    split; nia. }
  destruct (scan_returns self data _ m offsets scan_init Hw Hfit) as (st & Hst).
  exists m, st. rewrite Hm, Hr. simpl. rewrite Hst. simpl.
  repeat split.
  - exact (scan_floor_zero _ _ _ _ _ _ _ Hst (Qeq_refl 0)).
  - apply scan_visited in Hst as (pre & Hv & Hpre & _). simpl in Hv. subst pre.
    destruct Hpre as (suf & ->).
    destruct (Hoff i) as [(k & Hk & _) _]; [apply elem_of_app; now left |].
    now exists k.
  - apply scan_visited in Hst as (pre & Hv & Hpre & _). simpl in Hv. subst pre.
    destruct Hpre as (suf & ->).
    destruct (Hoff i) as [(k & _ & Hk) _]; [apply elem_of_app; now left |].
    lia.
Qed.

(** On valid inputs the estimator returns, its maximum is the largest
    absolute sample, and its floor is 0. *)
Lemma calculate_noise_floor_returns (self : AudioPreprocessor) (data : list Q)
    (sample_rate : Z) :
  valid_input self data sample_rate ->
  exists nfloor_amp max_amp,
    calculate_noise_floor self data sample_rate = Ok (nfloor_amp, max_amp) /\
    np_max (np_abs data) = Ok max_amp /\ nfloor_amp == 0.
Proof.
  intros Hvalid.
  destruct (noise_floor_scan_returns self data sample_rate Hvalid)
    as (m & st & Hscan & Hm & Hzero & _).
  unfold calculate_noise_floor. rewrite Hscan. simpl.
  eexists _, m. split; [reflexivity |]. split; [exact Hm |].
  destruct (nfloor_amplitudes st); [reflexivity | exact Hzero].
Qed.

(** C8. For every valid input signal and window parameters the estimator
    returns a result with 0 <= noise_floor_amp <= max_amp. *)
Theorem floor_between_zero_and_max (self : AudioPreprocessor) (data : list Q)
    (sample_rate : Z) :
  valid_input self data sample_rate ->
  exists nfloor_amp max_amp,
    calculate_noise_floor self data sample_rate = Ok (nfloor_amp, max_amp) /\
    0 <= nfloor_amp /\ nfloor_amp <= max_amp.
Proof.
  intros Hvalid.
  destruct (calculate_noise_floor_returns self data sample_rate Hvalid)
    as (nf & m & Hres & Hm & Hnf).
  exists nf, m. split; [exact Hres |].
  apply np_max_abs_nonneg in Hm. split; lra.
Qed.

Lemma floor_between_zero_and_max_witness :
  exists nfloor_amp max_amp,
    calculate_noise_floor defopts
      [0; 0; 0; 0; 0; 0.01; -0.02; 0.5; -0.9; 0.3; 0; 0] 100
      = Ok (nfloor_amp, max_amp) /\
    0 <= nfloor_amp /\ nfloor_amp <= max_amp.
Proof.
  apply floor_between_zero_and_max.
  split; [discriminate | split; vm_compute; discriminate].
Defined.

(** ** The concrete scenario and the threshold of the empty list *)

(** C1. The scenario of the specification (1000 samples at 1000 Hz, default
    configuration).  The specification expects a floor of about 0.01 after
    several accepted quiet windows; the code accepts no window: the first
    window (maximum 0.01) is tested against the threshold of the empty list,
    0.1 * (0.9 - 0.9) = 0, the scan halts at offset 0, and the result is
    (0, 0.9). *)
Theorem concrete_scenario_floor_is_zero :
  window_size defopts 1000 = 50%Z /\ skip_size defopts 1000 = 20%Z /\
  noise_floor_scan defopts quiet_then_loud 1000
    = Ok (0.9, {| nfloor_amplitudes := []; visited := [0%Z]; halted := true |}) /\
  calculate_noise_floor defopts quiet_then_loud 1000 = Ok (0, 0.9).
Proof. repeat split; vm_compute; reflexivity. Qed.

Lemma scan_accepted_length (self : AudioPreprocessor) (data : list Q) (w : Z)
    (max_amp : Q) (offsets : list Z) (st st' : scan_state) :
  scan self data w max_amp offsets st = Ok st' ->
  (length (nfloor_amplitudes st) <= length (nfloor_amplitudes st'))%nat.
Proof.
  revert st. induction offsets as [|i rest IH]; intros st Hscan; simpl in Hscan.
  - injection Hscan as <-. lia.
  - bind_inv Hscan. destruct (Qlt_bool _ x).
    + injection Hscan as <-. simpl. lia.
    + apply IH in Hscan. simpl in Hscan. rewrite length_app in Hscan. lia.
Qed.

(** The scan stops on the first window (halted, nothing accepted) exactly
    when that window is not silent. *)
Lemma first_window_halts_iff (self : AudioPreprocessor) (data : list Q)
    (w : Z) (max_amp : Q) (i : Z) (rest : list Z) (window_max : Q) :
  np_max (np_abs (py_slice data i (i + w))) = Ok window_max ->
  (exists st, scan self data w max_amp (i :: rest) scan_init = Ok st /\
              halted st = true /\ nfloor_amplitudes st = [])
  <-> 0 < window_max.
Proof.
  intros Hwm. simpl. rewrite Hwm. simpl.
  pose proof (threshold_empty self max_amp) as Hthr.
  destruct (Qlt_bool _ window_max) eqn:Hcmp.
  - apply Qlt_bool_iff in Hcmp. split; [intros _; lra |].
    intros _. eexists. split; [reflexivity | now split].
  - apply Qlt_bool_false_iff in Hcmp. split; [| intros; lra].
    intros (st & Hscan & _ & Hacc).
    apply scan_accepted_length in Hscan. rewrite Hacc in Hscan.
    simpl in Hscan. lia.
Qed.

(** C2. With nothing accepted, the threshold of the code is
    nfloor_max_frac * (max_amp - max_amp) = 0, not nfloor_max_frac * max_amp.
    On [short_lead_in] the first window maximum, 0.01, does not exceed
    0.1 * 0.9, yet the scan stops on that window. *)
Theorem empty_threshold_is_zero_on_lead_in :
  threshold defopts 0.9 [] == 0 /\
  ~ threshold defopts 0.9 [] == nfloor_max_frac defopts * 0.9 /\
  np_max (np_abs (py_slice short_lead_in 0 (0 + window_size defopts 100))) = Ok 0.01 /\
  0.01 <= nfloor_max_frac defopts * 0.9 /\
  noise_floor_scan defopts short_lead_in 100
    = Ok (0.9, {| nfloor_amplitudes := []; visited := [0%Z]; halted := true |}) /\
  calculate_noise_floor defopts short_lead_in 100 = Ok (0, 0.9).
Proof.
  split; [apply threshold_empty |].
  split; [vm_compute; discriminate |].
  split; [vm_compute; reflexivity |].
  split; [vm_compute; discriminate |].
  split; vm_compute; reflexivity.
Qed.

(** ** Signals shorter than one window *)

(** C4, counterexample. One sample at 1000 Hz is shorter than the window of
    50 samples; the estimator raises nothing and returns (0, 0.5). *)
Lemma short_signal_raises_nothing :
  (Z.of_nat (length [0.5%Q]) < window_size defopts 1000)%Z /\
  calculate_noise_floor defopts [0.5] 1000 = Ok (0, 0.5) /\
  forall e, calculate_noise_floor defopts [0.5] 1000 <> Raise e.
Proof.
  split; [vm_compute; reflexivity |].
  split; [vm_compute; reflexivity |].
  intros e. vm_compute. discriminate.
Qed.

(** C4, amended. A non-empty signal with fewer than window_size samples,
    scanned with a positive skip, raises no error: no window is examined and
    the estimator returns a floor of 0 with the maximum amplitude. *)
Theorem short_signal_returns_zero_floor (self : AudioPreprocessor)
    (data : list Q) (sample_rate : Z) :
  data <> [] ->
  (Z.of_nat (length data) < window_size self sample_rate)%Z ->
  (1 <= skip_size self sample_rate)%Z ->
  exists max_amp,
    np_max (np_abs data) = Ok max_amp /\
    noise_floor_scan self data sample_rate = Ok (max_amp, scan_init) /\
    calculate_noise_floor self data sample_rate = Ok (0, max_amp).
Proof.
  intros Hne Hlen Hskip.
  destruct (np_max_abs_spec data Hne) as (m & Hm & _).
  exists m. split; [exact Hm |].
  assert (Hscan : noise_floor_scan self data sample_rate = Ok (m, scan_init)).
  { unfold noise_floor_scan, py_range, range_len. rewrite Hm. simpl.
    destruct (Z.eqb_spec (skip_size self sample_rate) 0) as [? | _]; [lia |].
    destruct (Z.ltb_spec 0 (skip_size self sample_rate)) as [_ | ?]; [| lia].
    destruct (Z.ltb_spec 0 (Z.of_nat (length data) - window_size self sample_rate))
      as [? | _]; [lia |].
    reflexivity. }
  split; [exact Hscan |].
  unfold calculate_noise_floor. rewrite Hscan. reflexivity.
Qed.

Lemma short_signal_returns_zero_floor_witness :
  exists max_amp,
    np_max (np_abs [0.5; -0.75]) = Ok max_amp /\
    noise_floor_scan defopts [0.5; -0.75] 1000 = Ok (max_amp, scan_init) /\
    calculate_noise_floor defopts [0.5; -0.75] 1000 = Ok (0, max_amp).
Proof.
  apply short_signal_returns_zero_floor.
  - discriminate.
  - vm_compute. reflexivity.
  - vm_compute. discriminate.
Defined.

(** ** The last window *)

(** C5. 70 silent samples at 1000 Hz (window 50, skip 20).  Offset 20 is a
    multiple of the skip and its window ends exactly at the end of the
    signal; the scan does not stop early, and still enters offset 0 only:
    [range(0, len(data) - window_size, skip_size)] excludes the offset whose
    window is the last one that fits. *)
Theorem last_fitting_window_not_examined :
  window_size defopts 1000 = 50%Z /\ skip_size defopts 1000 = 20%Z /\
  (20 + window_size defopts 1000 <= Z.of_nat (length (replicate 70 (0 : Q))))%Z /\
  py_range 0 (Z.of_nat (length (replicate 70 (0 : Q))) - window_size defopts 1000)
    (skip_size defopts 1000) = Ok [0%Z] /\
  noise_floor_scan defopts (replicate 70 0) 1000
    = Ok (0, {| nfloor_amplitudes := [0]; visited := [0%Z]; halted := false |}).
Proof. repeat split; vm_compute; solve [reflexivity | discriminate]. Qed.

(** In general no examined window reaches the end of the signal: a signal of
    exactly [window_size + k * skip_size] samples has its last window left
    out. *)
Lemma exact_fit_not_examined (self : AudioPreprocessor) (data : list Q)
    (sample_rate : Z) (k : nat) (max_amp : Q) (st : scan_state) :
  valid_input self data sample_rate ->
  Z.of_nat (length data)
    = (window_size self sample_rate + Z.of_nat k * skip_size self sample_rate)%Z ->
  noise_floor_scan self data sample_rate = Ok (max_amp, st) ->
  (Z.of_nat k * skip_size self sample_rate)%Z ∉ visited st.
Proof.
  intros Hvalid Hlen Hscan Hin.
  destruct (noise_floor_scan_returns self data sample_rate Hvalid)
    as (m & st' & Hscan' & _ & _ & Hvis).
  rewrite Hscan in Hscan'. injection Hscan' as _ <-.
  apply Hvis in Hin as [_ Hlt]. lia.
Qed.

(** ** Window parameters *)

Lemma quot_abs_bounds (a b : Z) :
  (0 < b)%Z ->
  (Z.abs (Z.quot a b) * b <= Z.abs a < (Z.abs (Z.quot a b) + 1) * b)%Z /\
  (0 <= a -> 0 <= Z.quot a b)%Z /\ (a <= 0 -> Z.quot a b <= 0)%Z.
Proof.
  intros Hb.
  assert (Hpos : forall c, (0 <= c)%Z ->
             (0 <= Z.quot c b /\ Z.quot c b * b <= c < (Z.quot c b + 1) * b)%Z).
  { intros c Hc. rewrite Z.quot_div_nonneg by lia.
    pose proof (Z.div_pos c b Hc Hb).
    pose proof (Z.mul_div_le c b Hb). pose proof (Z.mul_succ_div_gt c b Hb).
    nia. }
  destruct (Z.le_gt_cases 0 a) as [Ha | Ha].
  - destruct (Hpos a Ha) as (Hq & Hlo & Hhi).
    rewrite !Z.abs_eq by lia. repeat split; lia.
  - destruct (Hpos (- a)%Z ltac:(lia)) as (Hq & Hlo & Hhi).
    rewrite Z.quot_opp_l in Hq, Hlo, Hhi by lia.
    rewrite !Z.abs_neq by lia. repeat split; lia.
Qed.

Lemma py_int_truncates (x : Q) : truncates_toward_zero x (py_int x).
Proof.
  destruct x as [a b]. unfold truncates_toward_zero, py_int. simpl Qnum. simpl Qden.
  destruct (quot_abs_bounds a (Zpos b) ltac:(lia)) as ((Hlo & Hhi) & Hnn & Hnp).
  repeat split.
  - unfold Qle. simpl. lia.
  - unfold Qlt. simpl. lia.
  - unfold Qle. simpl. intros H. apply Hnn. lia.
  - unfold Qle. simpl. intros H. apply Hnp. lia.
Qed.

(** [truncates_toward_zero] determines the integer. *)
Lemma truncation_unique (x : Q) (n m : Z) :
  truncates_toward_zero x n -> truncates_toward_zero x m -> n = m.
Proof.
  intros (Hn1 & Hn2 & Hn3 & Hn4) (Hm1 & Hm2 & Hm3 & Hm4).
  assert (Habs : forall z, Qabs (inject_Z z) == inject_Z (Z.abs z)).
  { intros z. unfold Qabs, inject_Z. simpl. reflexivity. }
  rewrite Habs in Hn1, Hn2, Hm1, Hm2.
  assert (Hlt1 : inject_Z (Z.abs n) < inject_Z (Z.abs m + 1)).
  { rewrite inject_Z_plus. change (inject_Z 1) with 1. lra. }
  assert (Hlt2 : inject_Z (Z.abs m) < inject_Z (Z.abs n + 1)).
  { rewrite inject_Z_plus. change (inject_Z 1) with 1. lra. }
  rewrite <- Zlt_Qlt in Hlt1, Hlt2.
  destruct (Qlt_le_dec x 0) as [Hx | Hx].
  - assert (n <= 0)%Z by (apply Hn4; lra). assert (m <= 0)%Z by (apply Hm4; lra). lia.
  - specialize (Hn3 Hx). specialize (Hm3 Hx). lia.
Qed.

(** C6, counterexample. At 35 Hz the default window of 0.05 s is 1.75
    samples: the code yields 1, which is not the nearest integer; likewise
    the skip of 0.7 samples becomes 0.  This holds of the exact products and
    of the float64 products alike. *)
Lemma window_size_is_not_rounded :
  window_size defopts 35 = 1%Z /\ skip_size defopts 35 = 0%Z /\
  ~ rounds_to_nearest (win_nfloor_s defopts * inject_Z 35) (window_size defopts 35) /\
  ~ rounds_to_nearest (win_skip_s defopts * inject_Z 35) (skip_size defopts 35) /\
  ~ rounds_to_nearest (float_product (win_nfloor_s defopts) 35)
      (window_size defopts 35) /\
  ~ rounds_to_nearest (float_product (win_skip_s defopts) 35)
      (skip_size defopts 35).
Proof.
  repeat split; try (vm_compute; reflexivity);
    intros H; vm_compute in H; apply H; reflexivity.
Qed.

(** Truncation is taken of the rounded product: with a window of 0.009 s at
    48000 Hz the float64 product is 431.99999999999994 and the window is 431
    samples, where the exact product, 432, would give 432. *)
Lemma window_size_of_rounded_product :
  window_size
    {| win_nfloor_s := 0.009; win_skip_s := 0.02; nfloor_max_frac := 0.1;
       smooth_amp_frac := 0.1; amplitude_adjust_range := (0.8, 1.2) |} 48000
  = 431%Z /\
  py_int (0.009 * inject_Z 48000) = 432%Z.
Proof. split; vm_compute; reflexivity. Qed.

(** C6, amended. For every sample rate (the products being within the
    float64 range), window_size and skip_size are int(win_nfloor_s *
    sample_rate) and int(win_skip_s * sample_rate): the float64 products
    truncated toward zero, not rounded to the nearest integer. *)
Theorem window_parameters_truncate (self : AudioPreprocessor) (sample_rate : Z) :
  no_overflow (win_nfloor_s self) sample_rate ->
  no_overflow (win_skip_s self) sample_rate ->
  truncates_toward_zero (float_product (win_nfloor_s self) sample_rate)
    (window_size self sample_rate) /\
  truncates_toward_zero (float_product (win_skip_s self) sample_rate)
    (skip_size self sample_rate).
Proof. intros _ _. split; apply py_int_truncates. Qed.

Lemma window_parameters_truncate_witness :
  truncates_toward_zero (float_product (win_nfloor_s defopts) 44100)
    (window_size defopts 44100) /\
  truncates_toward_zero (float_product (win_skip_s defopts) 44100)
    (skip_size defopts 44100).
Proof.
  apply window_parameters_truncate; split; vm_compute; reflexivity.
Defined.

(** ** The transition factor and the gain *)

Lemma clamp_unit (v : float_val) :
  exists t, py_max (Fin 0) (py_min (Fin 1) v) = Fin t /\ 0 <= t /\ t <= 1.
Proof.
  destruct v as [q | | |]; unfold py_min; simpl.
  - destruct (Qlt_bool q 1) eqn:H1; unfold py_max; simpl.
    + destruct (Qlt_bool 0 q) eqn:H0.
      * apply Qlt_bool_iff in H1, H0. exists q. repeat split; lra.
      * exists 0. repeat split; lra.
    + exists 1. repeat split; lra.
  - exists 1. repeat split; lra.
  - exists 0. repeat split; lra.
  - exists 1. repeat split; lra.
Qed.

Lemma smooth_transition_factor_unit (self : AudioPreprocessor)
    (abs_val nfloor_amp max_amp : Q) :
  exists t, smooth_transition_factor self abs_val nfloor_amp max_amp = Fin t /\
            0 <= t /\ t <= 1.
Proof. apply clamp_unit. Qed.

Lemma amplitude_adjustment_Fin (t r : Q) :
  amplitude_adjustment (Fin t) r = Fin (1 + - t + t * r).
Proof. reflexivity. Qed.

(** [random.uniform(lo, hi)] stays in [lo, hi] when [random()] is in [0, 1]. *)
Lemma uniform_in_range (u lo hi : Q) :
  0 <= u <= 1 -> lo <= hi -> lo <= uniform u (lo, hi) <= hi.
Proof. unfold uniform. simpl. intros Hu Hle. split; nra. Qed.

(** A blend of 1 and [r] with weight [t] stays between them. *)
Lemma blend_bounds (t r lo hi : Q) :
  0 <= t -> t <= 1 -> lo <= r <= hi ->
  Qmin 1 lo <= 1 + - t + t * r <= Qmax 1 hi.
Proof.
  intros Ht0 Ht1 Hr.
  pose proof (Q.le_min_l 1 lo). pose proof (Q.le_min_r 1 lo).
  pose proof (Q.le_max_l 1 hi). pose proof (Q.le_max_r 1 hi).
  generalize dependent (Qmin 1 lo). generalize dependent (Qmax 1 hi).
  intros. split; nra.
Qed.

(** C9. For every sample and every draw r in [lo, hi], the transition factor
    is a number t of [0, 1] and the applied gain (1 - t) + t * r lies in
    [min(1, lo), max(1, hi)]. *)
Theorem gain_within_bounds (self : AudioPreprocessor)
    (abs_val nfloor_amp max_amp lo hi r : Q) :
  lo <= r <= hi ->
  exists t g,
    smooth_transition_factor self abs_val nfloor_amp max_amp = Fin t /\
    0 <= t <= 1 /\
    amplitude_adjustment
      (smooth_transition_factor self abs_val nfloor_amp max_amp) r = Fin g /\
    g == (1 - t) + t * r /\
    Qmin 1 lo <= g <= Qmax 1 hi.
Proof.
  intros Hr.
  destruct (smooth_transition_factor_unit self abs_val nfloor_amp max_amp)
    as (t & Ht & Ht0 & Ht1).
  exists t, (1 + - t + t * r). split; [exact Ht |].
  split; [now split |]. split; [now rewrite Ht |]. split; [ring |].
  now apply blend_bounds.
Qed.

Lemma gain_within_bounds_witness :
  exists t g,
    smooth_transition_factor defopts 0.5 0.01 0.9 = Fin t /\
    0 <= t <= 1 /\
    amplitude_adjustment (smooth_transition_factor defopts 0.5 0.01 0.9) 1.1
      = Fin g /\
    g == (1 - t) + t * 1.1 /\
    Qmin 1 0.8 <= g <= Qmax 1 1.2.
Proof.
  apply (gain_within_bounds defopts 0.5 0.01 0.9 0.8 1.2 1.1).
  split; vm_compute; discriminate.
Defined.

(** ** A zero denominator *)

Lemma np_div_by_zero (x y : Q) : y == 0 -> 0 < x -> np_div x y = PInf.
Proof.
  intros Hy Hx. unfold np_div.
  apply Qeq_bool_iff in Hy. rewrite Hy.
  apply Qlt_bool_iff in Hx. now rewrite Hx.
Qed.

(** C3, counterexample. With smooth_amp_frac = 0.1 and max_amp =
    noise_floor_amp = 0.5 the denominator is 0; for the qualifying sample 0.7
    the quotient is computed all the same, and it is +inf. *)
Lemma zero_denominator_is_divided :
  smooth_amp_frac defopts * (0.5 - 0.5) == 0 /\ 0.5 < Qabs 0.7 /\
  transition_quotient defopts (Qabs 0.7) 0.5 0.5 = PInf.
Proof.
  split; [reflexivity |]. split; reflexivity.
Qed.

Lemma negative_zero_product_false (a b : Q) :
  0 <= a -> 0 <= b -> negative_zero_product a b = false.
Proof.
  intros Ha Hb. unfold negative_zero_product.
  apply Qlt_bool_false_iff in Ha, Hb. rewrite Ha, Hb.
  now rewrite andb_false_r.
Qed.

Lemma negative_zero_product_true (a b : Q) :
  a * b == 0 -> a < 0 \/ b < 0 -> negative_zero_product a b = true.
Proof.
  intros Hab Hneg. unfold negative_zero_product.
  destruct (Qmult_integral _ _ Hab) as [Hz | Hz].
  - destruct Hneg as [Ha | Hb]; [lra |].
    apply Qeq_bool_iff in Hz. apply Qlt_bool_iff in Hb. now rewrite Hz, Hb.
  - destruct Hneg as [Ha | Hb]; [| lra].
    apply Qeq_bool_iff in Hz. apply Qlt_bool_iff in Ha. rewrite Hz, Ha.
    now rewrite orb_true_r.
Qed.

(** The quotient of a qualifying sample by a zero denominator. *)
Lemma transition_quotient_zero (self : AudioPreprocessor)
    (abs_val nfloor_amp max_amp : Q) :
  smooth_amp_frac self * (max_amp - nfloor_amp) == 0 ->
  nfloor_amp < abs_val ->
  transition_quotient self abs_val nfloor_amp max_amp
  = if negative_zero_product (smooth_amp_frac self) (max_amp - nfloor_amp)
    then NInf else PInf.
Proof.
  intros Hden Hq. unfold transition_quotient, np_div_signed.
  rewrite (np_div_by_zero _ _ Hden) by lra.
  apply Qeq_bool_iff in Hden. rewrite Hden.
  now destruct (negative_zero_product _ _).
Qed.

(** C3, amended. When the denominator smooth_amp_frac * (max_amp -
    noise_floor_amp) is 0 and the sample qualifies, no guard intervenes: the
    quotient is evaluated.  With smooth_amp_frac >= 0 and noise_floor_amp <=
    max_amp the denominator is +0.0: the quotient is +inf (never nan, the
    numerator being positive), the clamp max(0, min(1, .)) makes the
    transition factor 1 and the gain is the random draw.  Otherwise the
    denominator is -0.0: the quotient is -inf, the transition factor is 0
    and the gain is 1. *)
Theorem zero_denominator_is_clamped (self : AudioPreprocessor)
    (s nfloor_amp max_amp r : Q) :
  smooth_amp_frac self * (max_amp - nfloor_amp) == 0 ->
  nfloor_amp < Qabs s ->
  (0 <= smooth_amp_frac self -> nfloor_amp <= max_amp ->
   transition_quotient self (Qabs s) nfloor_amp max_amp = PInf /\
   smooth_transition_factor self (Qabs s) nfloor_amp max_amp = Fin 1 /\
   exists g,
     amplitude_adjustment
       (smooth_transition_factor self (Qabs s) nfloor_amp max_amp) r = Fin g /\
     g == r) /\
  (smooth_amp_frac self < 0 \/ max_amp < nfloor_amp ->
   transition_quotient self (Qabs s) nfloor_amp max_amp = NInf /\
   smooth_transition_factor self (Qabs s) nfloor_amp max_amp = Fin 0 /\
   exists g,
     amplitude_adjustment
       (smooth_transition_factor self (Qabs s) nfloor_amp max_amp) r = Fin g /\
     g == 1).
Proof.
  intros Hden Hq.
  pose proof (transition_quotient_zero self (Qabs s) nfloor_amp max_amp Hden Hq)
    as Hquot.
  split.
  - intros Hfrac Hle.
    rewrite negative_zero_product_false in Hquot by lra.
    assert (Ht : smooth_transition_factor self (Qabs s) nfloor_amp max_amp = Fin 1).
    { unfold smooth_transition_factor. rewrite Hquot. reflexivity. }
    split; [exact Hquot |]. split; [exact Ht |].
    rewrite Ht. exists (1 + - 1 + 1 * r). split; [reflexivity | ring].
  - intros Hneg.
    rewrite negative_zero_product_true in Hquot; [| exact Hden |].
    + assert (Ht : smooth_transition_factor self (Qabs s) nfloor_amp max_amp
                   = Fin 0).
      { unfold smooth_transition_factor. rewrite Hquot. reflexivity. }
      split; [exact Hquot |]. split; [exact Ht |].
      rewrite Ht. exists (1 + - 0 + 0 * r). split; [reflexivity | ring].
    + destruct Hneg as [H | H]; [now left | right; lra].
Qed.

Lemma zero_denominator_is_clamped_witness :
  (0 <= smooth_amp_frac defopts -> 0.5 <= 0.5 ->
   transition_quotient defopts (Qabs (-0.7)) 0.5 0.5 = PInf /\
   smooth_transition_factor defopts (Qabs (-0.7)) 0.5 0.5 = Fin 1 /\
   exists g,
     amplitude_adjustment
       (smooth_transition_factor defopts (Qabs (-0.7)) 0.5 0.5) 1.2 = Fin g /\
     g == 1.2) /\
  (smooth_amp_frac defopts < 0 \/ 0.5 < 0.5 ->
   transition_quotient defopts (Qabs (-0.7)) 0.5 0.5 = NInf /\
   smooth_transition_factor defopts (Qabs (-0.7)) 0.5 0.5 = Fin 0 /\
   exists g,
     amplitude_adjustment
       (smooth_transition_factor defopts (Qabs (-0.7)) 0.5 0.5) 1.2 = Fin g /\
     g == 1).
Proof.
  apply zero_denominator_is_clamped; reflexivity.
Defined.

(** The second case at work: smooth_amp_frac = -0.1 with max_amp =
    noise_floor_amp = 0.5 makes the denominator -0.0; the sample 0.7 gets
    the quotient -inf, the transition factor 0 and the gain 1. *)
Lemma negative_zero_denominator :
  let self := {| win_nfloor_s := 0.05; win_skip_s := 0.02;
                 nfloor_max_frac := 0.1; smooth_amp_frac := -0.1;
                 amplitude_adjust_range := (0.8, 1.2) |} in
  transition_quotient self (Qabs 0.7) 0.5 0.5 = NInf /\
  smooth_transition_factor self (Qabs 0.7) 0.5 0.5 = Fin 0 /\
  exists st o,
    adjust_amplitude self (fun _ => 1) 0 [0.7] 0.5 0.5 = Ok st /\
    adjusted_data st = [Fin o] /\ o == 0.7.
Proof.
  simpl. split; [reflexivity |]. split; [reflexivity |].
  eexists _, _. split; [vm_compute; reflexivity |].
  split; [vm_compute; reflexivity | vm_compute; reflexivity].
Qed.

(** ** adjust_amplitude, sample by sample *)

Section Transform.

Variable self : AudioPreprocessor.
Variable rng : nat -> Q.
Variable data : list Q.
Variables nfloor_amp max_amp : Q.

Lemma adjust_body_below (i : nat) (s : Q) (st : adjust_state) :
  data !! i = Some s -> qualifies nfloor_amp s = false ->
  adjust_body self rng data nfloor_amp max_amp i st = Ok st.
Proof.
  intros Hi Hq. unfold adjust_body. rewrite Hi.
  unfold qualifies in Hq. now rewrite Hq.
Qed.

Lemma adjust_body_above (i : nat) (s : Q) (st : adjust_state) :
  data !! i = Some s -> qualifies nfloor_amp s = true ->
  adjust_body self rng data nfloor_amp max_amp i st
  = Ok {| adjusted_data :=
            <[i := jittered self rng nfloor_amp max_amp s (draws st)]>
              (adjusted_data st);
          draws := S (draws st) |}.
Proof.
  intros Hi Hq. unfold adjust_body. rewrite Hi.
  unfold qualifies in Hq. now rewrite Hq.
Qed.

(** The loop over in-range indices returns; it leaves alone every position
    it does not visit and every sample that does not qualify, and writes a
    jittered value at every visited position whose sample qualifies. *)
Lemma adjust_loop_spec (indices : list nat) (st : adjust_state) :
  Forall (fun i => (i < length data)%nat) indices ->
  length (adjusted_data st) = length data ->
  exists st',
    adjust_loop self rng data nfloor_amp max_amp indices st = Ok st' /\
    length (adjusted_data st') = length data /\
    (forall j, j ∉ indices -> adjusted_data st' !! j = adjusted_data st !! j) /\
    (forall j s, data !! j = Some s -> qualifies nfloor_amp s = false ->
                 adjusted_data st' !! j = adjusted_data st !! j) /\
    (forall j s, j ∈ indices -> data !! j = Some s ->
                 qualifies nfloor_amp s = true ->
                 exists d, adjusted_data st' !! j
                           = Some (jittered self rng nfloor_amp max_amp s d)).
Proof.
  intros Hall. revert st.
  induction Hall as [|i rest Hi _ IH]; intros st Hlen.
  - exists st. repeat split; try done.
    intros j s Hj. now apply elem_of_nil in Hj.
  - destruct (lookup_lt_is_Some_2 data i Hi) as (x & Hx).
    simpl. destruct (qualifies nfloor_amp x) eqn:Hq.
    + rewrite (adjust_body_above i x st Hx Hq). simpl.
      set (st1 := {| adjusted_data :=
                       <[i := jittered self rng nfloor_amp max_amp x (draws st)]>
                         (adjusted_data st);
                     draws := S (draws st) |}).
      destruct (IH st1) as (st' & Hloop & Hlen' & Hout & Hlow & Hhigh).
      { simpl. now rewrite length_insert. }
      exists st'. split; [exact Hloop |]. split; [exact Hlen' |].
      split; [| split].
      * intros j Hj. apply not_elem_of_cons in Hj as [Hne Hj].
        rewrite (Hout j Hj). simpl. now apply list_lookup_insert_ne.
      * intros j s Hj Hs. rewrite (Hlow j s Hj Hs). simpl.
        apply list_lookup_insert_ne. intros ->. congruence.
      * intros j s Hj Hs Hqs.
        destruct (decide (j ∈ rest)) as [Hin | Hnin].
        -- exact (Hhigh j s Hin Hs Hqs).
        -- apply elem_of_cons in Hj as [-> | Hj]; [| contradiction].
           assert (s = x) as -> by congruence.
           exists (draws st). rewrite (Hout i Hnin). simpl.
           apply list_lookup_insert_eq. lia.
    + rewrite (adjust_body_below i x st Hx Hq). simpl.
      destruct (IH st Hlen) as (st' & Hloop & Hlen' & Hout & Hlow & Hhigh).
      exists st'. split; [exact Hloop |]. split; [exact Hlen' |].
      split; [| split].
      * intros j Hj. apply not_elem_of_cons in Hj as [_ Hj]. exact (Hout j Hj).
      * exact Hlow.
      * intros j s Hj Hs Hqs.
        apply elem_of_cons in Hj as [-> | Hj]; [congruence |].
        exact (Hhigh j s Hj Hs Hqs).
Qed.

(** When no sample qualifies the loop changes nothing and draws nothing. *)
Lemma adjust_loop_idle (indices : list nat) (st : adjust_state) :
  Forall (fun i => (i < length data)%nat) indices ->
  Forall (fun s => qualifies nfloor_amp s = false) data ->
  adjust_loop self rng data nfloor_amp max_amp indices st = Ok st.
Proof.
  intros Hall Hnone. induction Hall as [|i rest Hi _ IH]; [reflexivity |].
  destruct (lookup_lt_is_Some_2 data i Hi) as (x & Hx).
  simpl. rewrite (adjust_body_below i x st Hx); [exact IH |].
  rewrite Forall_forall in Hnone. apply Hnone.
  eapply list_elem_of_lookup_2. exact Hx.
Qed.

Lemma seq_in_range (n : nat) : Forall (fun i => (i < n)%nat) (seq 0 n).
Proof. apply Forall_forall. intros i Hi. apply elem_of_seq in Hi. lia. Qed.

(** [adjust_amplitude] returns an array of the length of its input, with
    each sample either untouched (below or at the floor) or jittered. *)
Lemma adjust_amplitude_spec (k : nat) :
  exists st,
    adjust_amplitude self rng k data nfloor_amp max_amp = Ok st /\
    length (adjusted_data st) = length data /\
    forall j s, data !! j = Some s ->
      if qualifies nfloor_amp s
      then exists d, adjusted_data st !! j
                     = Some (jittered self rng nfloor_amp max_amp s d)
      else adjusted_data st !! j = Some (Fin s).
Proof.
  unfold adjust_amplitude.
  destruct (adjust_loop_spec (seq 0 (length data))
              {| adjusted_data := Fin <$> data; draws := k |}
              (seq_in_range _)) as (st & Hloop & Hlen & _ & Hlow & Hhigh).
  { simpl. apply length_fmap. }
  exists st. split; [exact Hloop |]. split; [exact Hlen |].
  intros j s Hj. destruct (qualifies nfloor_amp s) eqn:Hq.
  - apply (Hhigh j s); [| exact Hj | exact Hq].
    apply elem_of_seq. apply lookup_lt_Some in Hj. lia.
  - rewrite (Hlow j s Hj Hq). simpl.
    rewrite list_lookup_fmap, Hj. reflexivity.
Qed.

End Transform.

Lemma jittered_finite (self : AudioPreprocessor) (rng : nat -> Q)
    (nfloor_amp max_amp s : Q) (d : nat) :
  exists t,
    smooth_transition_factor self (Qabs s) nfloor_amp max_amp = Fin t /\
    0 <= t <= 1 /\
    jittered self rng nfloor_amp max_amp s d
    = Fin (s * (1 + - t + t * uniform (rng d) (amplitude_adjust_range self))).
Proof.
  destruct (smooth_transition_factor_unit self (Qabs s) nfloor_amp max_amp)
    as (t & Ht & Ht0 & Ht1).
  exists t. split; [exact Ht |]. split; [now split |].
  unfold jittered. rewrite Ht. reflexivity.
Qed.

(** With [random()] in [0, 1] and lo <= hi, every output sample is its input
    times a gain of [min(1, lo), max(1, hi)]. *)
Lemma adjust_amplitude_gain (self : AudioPreprocessor) (rng : nat -> Q)
    (k : nat) (data : list Q) (nfloor_amp max_amp : Q) :
  (forall d, 0 <= rng d <= 1) ->
  fst (amplitude_adjust_range self) <= snd (amplitude_adjust_range self) ->
  exists st,
    adjust_amplitude self rng k data nfloor_amp max_amp = Ok st /\
    forall j s, data !! j = Some s ->
      exists g, adjusted_data st !! j = Some (Fin (s * g)) /\
                Qmin 1 (fst (amplitude_adjust_range self)) <= g /\
                g <= Qmax 1 (snd (amplitude_adjust_range self)) \/
                adjusted_data st !! j = Some (Fin s).
Proof.
  intros Hrng Hrange.
  destruct (adjust_amplitude_spec self rng data nfloor_amp max_amp k)
    as (st & Hst & _ & Hsample).
  exists st. split; [exact Hst |]. intros j s Hj.
  specialize (Hsample j s Hj). destruct (qualifies nfloor_amp s).
  - destruct Hsample as (d & Hd).
    destruct (jittered_finite self rng nfloor_amp max_amp s d)
      as (t & _ & (Ht0 & Ht1) & Hjit).
    rewrite Hjit in Hd. eexists. left. split; [exact Hd |].
    destruct (amplitude_adjust_range self) as [lo hi]. simpl in *.
    apply blend_bounds; [exact Ht0 | exact Ht1 |].
    now apply uniform_in_range.
  - exists 1. now right.
Qed.

(** C7. A sample whose absolute value is at most noise_floor_amp comes out
    of the transform exactly as it went in, whatever the random source;
    a sample that comes out changed is strictly above the floor. *)
Theorem below_floor_unchanged (self : AudioPreprocessor) (rng : nat -> Q)
    (k : nat) (data : list Q) (nfloor_amp max_amp : Q) (i : nat) (s : Q) :
  data !! i = Some s ->
  Qabs s <= nfloor_amp ->
  exists st,
    adjust_amplitude self rng k data nfloor_amp max_amp = Ok st /\
    adjusted_data st !! i = Some (Fin s) /\
    forall j x, data !! j = Some x ->
                adjusted_data st !! j <> Some (Fin x) -> nfloor_amp < Qabs x.
Proof.
  intros Hi Hs.
  destruct (adjust_amplitude_spec self rng data nfloor_amp max_amp k)
    as (st & Hst & _ & Hsample).
  exists st. split; [exact Hst |]. split.
  - specialize (Hsample i s Hi).
    assert (Hq : qualifies nfloor_amp s = false) by now apply Qlt_bool_false_iff.
    now rewrite Hq in Hsample.
  - intros j x Hj Hne. specialize (Hsample j x Hj).
    destruct (qualifies nfloor_amp x) eqn:Hq; [| contradiction].
    now apply Qlt_bool_iff.
Qed.

Lemma below_floor_unchanged_witness :
  exists st,
    adjust_amplitude defopts (fun _ => 1) 0 [0.01; -0.5; 0.9; 0] 0.01 0.9 = Ok st /\
    adjusted_data st !! 0%nat = Some (Fin 0.01) /\
    forall j x, [0.01; -0.5; 0.9; 0] !! j = Some x ->
                adjusted_data st !! j <> Some (Fin x) -> 0.01 < Qabs x.
Proof.
  apply below_floor_unchanged.
  - reflexivity.
  - vm_compute. discriminate.
Defined.

(** ** Silent signals *)

(** C10. For a signal of zeros (non-empty, with valid window parameters) the
    estimator returns max_amp = 0 and noise_floor_amp = 0, no sample
    qualifies, and the transform returns the input unchanged without a
    single random draw: the branch that holds the division is never
    entered. *)
Theorem silent_signal_is_noop (self : AudioPreprocessor) (data : list Q)
    (sample_rate : Z) :
  valid_input self data sample_rate ->
  Forall (fun s => s == 0) data ->
  exists nfloor_amp max_amp,
    calculate_noise_floor self data sample_rate = Ok (nfloor_amp, max_amp) /\
    max_amp == 0 /\ nfloor_amp == 0 /\
    Forall (fun s => qualifies nfloor_amp s = false) data /\
    forall rng k,
      adjust_amplitude self rng k data nfloor_amp max_amp
      = Ok {| adjusted_data := Fin <$> data; draws := k |}.
Proof.
  intros Hvalid Hzero.
  destruct (calculate_noise_floor_returns self data sample_rate Hvalid)
    as (nf & m & Hres & Hm & Hnf).
  assert (Hnone : Forall (fun s => qualifies nf s = false) data).
  { eapply Forall_impl; [exact Hzero |]. intros s Hs. simpl in Hs.
    apply Qlt_bool_false_iff. rewrite Hs, Hnf. vm_compute. discriminate. }
  exists nf, m. split; [exact Hres |]. split; [| split; [exact Hnf | split]].
  - destruct (np_max_abs_spec data (proj1 Hvalid)) as (m' & Hm' & _ & (x & Hx & ->) & _).
    rewrite Hm in Hm'. injection Hm' as ->.
    rewrite Forall_forall in Hzero. rewrite (Hzero x Hx). reflexivity.
  - exact Hnone.
  - intros rng k. unfold adjust_amplitude.
    apply adjust_loop_idle; [apply seq_in_range | exact Hnone].
Qed.

Lemma silent_signal_is_noop_witness :
  exists nfloor_amp max_amp,
    calculate_noise_floor defopts (replicate 12 0) 100 = Ok (nfloor_amp, max_amp) /\
    max_amp == 0 /\ nfloor_amp == 0 /\
    Forall (fun s => qualifies nfloor_amp s = false) (replicate 12 0) /\
    forall rng k,
      adjust_amplitude defopts rng k (replicate 12 0) nfloor_amp max_amp
      = Ok {| adjusted_data := Fin <$> replicate 12 0; draws := k |}.
Proof.
  apply silent_signal_is_noop.
  - split; [discriminate | split; vm_compute; discriminate].
  - apply Forall_forall. intros s Hs.
    apply elem_of_replicate in Hs as [-> _]. reflexivity.
Defined.

(** * Further properties of calculate_noise_floor *)

(** ** The returned maximum *)

(** X1. On valid input the second component of the result is the peak of
    the signal: it bounds the absolute value of every sample and is the
    absolute value of one of them. *)
Theorem max_amp_is_peak (self : AudioPreprocessor) (data : list Q)
    (sample_rate : Z) :
  valid_input self data sample_rate ->
  exists nfloor_amp max_amp,
    calculate_noise_floor self data sample_rate = Ok (nfloor_amp, max_amp) /\
    Forall (fun x => Qabs x <= max_amp) data /\
    exists x, x ∈ data /\ max_amp = Qabs x.
Proof.
  intros Hvalid.
  destruct (calculate_noise_floor_returns self data sample_rate Hvalid)
    as (nf & m & Hres & Hm & _).
  destruct (np_max_abs_spec data (proj1 Hvalid)) as (m' & Hm' & _ & Hatt & Hall).
  rewrite Hm in Hm'. injection Hm' as <-.
  exists nf, m. now repeat split.
Qed.

Lemma max_amp_is_peak_witness :
  exists nfloor_amp max_amp,
    calculate_noise_floor defopts [0.25; -0.75; 0.5; 0; 0.125; 0.25; 0.5] 100
      = Ok (nfloor_amp, max_amp) /\
    Forall (fun x => Qabs x <= max_amp) [0.25; -0.75; 0.5; 0; 0.125; 0.25; 0.5] /\
    exists x, x ∈ [0.25; -0.75; 0.5; 0; 0.125; 0.25; 0.5] /\ max_amp = Qabs x.
Proof.
  apply max_amp_is_peak.
  split; [discriminate | split; vm_compute; discriminate].
Defined.

(** X2. On every valid input the returned noise floor is 0: the first window
    is accepted only when it is silent, and the minimum of the accepted
    maxima then stays 0. *)
Theorem noise_floor_is_zero (self : AudioPreprocessor) (data : list Q)
    (sample_rate : Z) :
  valid_input self data sample_rate ->
  exists nfloor_amp max_amp,
    calculate_noise_floor self data sample_rate = Ok (nfloor_amp, max_amp) /\
    nfloor_amp == 0.
Proof.
  intros Hvalid.
  destruct (calculate_noise_floor_returns self data sample_rate Hvalid)
    as (nf & m & Hres & _ & Hnf).
  now exists nf, m.
Qed.

Lemma noise_floor_is_zero_witness :
  exists nfloor_amp max_amp,
    calculate_noise_floor defopts
      [0.01; 0.01; 0.02; 0.01; 0.01; 0.02; 0.01; 0.9; -0.9; 0.8] 100
      = Ok (nfloor_amp, max_amp) /\
    nfloor_amp == 0.
Proof.
  apply noise_floor_is_zero.
  split; [discriminate | split; vm_compute; discriminate].
Defined.

(** ** Errors *)

(** When the skip converts to 0 samples, a non-empty signal makes the
    estimator raise ValueError: [range] refuses a zero step. *)
Lemma zero_skip_raises (self : AudioPreprocessor) (data : list Q)
    (sample_rate : Z) :
  data <> [] ->
  skip_size self sample_rate = 0%Z ->
  calculate_noise_floor self data sample_rate = Raise ValueError.
Proof.
  intros Hne Hskip.
  destruct (np_max_abs_spec data Hne) as (m & Hm & _).
  unfold calculate_noise_floor, noise_floor_scan, py_range.
  rewrite Hm, Hskip. reflexivity.
Qed.

(** When the window converts to 0 samples while the skip is positive, a
    non-empty signal makes the estimator raise ValueError: the first window
    is an empty slice and [np.max] has nothing to reduce. *)
Lemma zero_window_raises (self : AudioPreprocessor) (data : list Q)
    (sample_rate : Z) :
  data <> [] ->
  window_size self sample_rate = 0%Z ->
  (1 <= skip_size self sample_rate)%Z ->
  calculate_noise_floor self data sample_rate = Raise ValueError.
Proof.
  intros Hne Hw Hskip.
  destruct (np_max_abs_spec data Hne) as (m & Hm & _).
  unfold calculate_noise_floor, noise_floor_scan, py_range, range_len.
  rewrite Hm, Hw. simpl.
  destruct (Z.eqb_spec (skip_size self sample_rate) 0) as [? | _]; [lia |].
  destruct (Z.ltb_spec 0 (skip_size self sample_rate)) as [_ | ?]; [| lia].
  assert (Hlen : (0 < Z.of_nat (length data))%Z).
  { destruct data; [congruence | simpl; lia]. }
  destruct (Z.ltb_spec 0 (Z.of_nat (length data) - 0)) as [_ | ?]; [| lia].
  destruct (Z.to_nat _) as [|n] eqn:Hn.
  - pose proof (Z.div_pos (Z.of_nat (length data) - 0 - 0 - 1)
                  (skip_size self sample_rate)). lia.
  - simpl. unfold py_slice, slice_index. simpl.
    rewrite Z.add_0_l, Z.mul_0_l, Z.add_0_l.
    replace (Z.to_nat _) with O by (destruct (0 <? 0)%Z; lia).
    reflexivity.
Qed.

(** X3. With window and skip sizes that are not negative, the estimator
    returns a result exactly on valid input (non-empty signal, sizes of at
    least one sample); on every other input it raises ValueError. *)
Theorem returns_iff_valid (self : AudioPreprocessor) (data : list Q)
    (sample_rate : Z) :
  (0 <= window_size self sample_rate)%Z ->
  (0 <= skip_size self sample_rate)%Z ->
  ((exists r, calculate_noise_floor self data sample_rate = Ok r)
   <-> valid_input self data sample_rate) /\
  (~ valid_input self data sample_rate ->
   calculate_noise_floor self data sample_rate = Raise ValueError).
Proof.
  intros Hw Hs.
  assert (Hraise : ~ valid_input self data sample_rate ->
                   calculate_noise_floor self data sample_rate = Raise ValueError).
  { intros Hnv. destruct data as [|x xs]; [reflexivity |].
    destruct (Z.eq_dec (skip_size self sample_rate) 0%Z) as [Hs0 | Hs0].
    - now apply zero_skip_raises.
    - apply zero_window_raises; [discriminate | | lia].
      destruct (Z.eq_dec (window_size self sample_rate) 0%Z) as [Hw0 | Hw0];
        [exact Hw0 |].
      exfalso. apply Hnv. split; [discriminate | lia]. }
  split; [| exact Hraise]. split.
  - intros (r & Hr).
    destruct (decide (data = [])) as [-> | Hne]; [discriminate |].
    destruct (Z_le_gt_dec 1%Z (window_size self sample_rate)) as [Hw1 | Hw1];
      destruct (Z_le_gt_dec 1%Z (skip_size self sample_rate)) as [Hs1 | Hs1];
      try (split; [exact Hne | split; assumption]);
      rewrite Hraise in Hr; try discriminate;
      intros (_ & ? & ?); lia.
  - intros Hvalid.
    destruct (calculate_noise_floor_returns self data sample_rate Hvalid)
      as (nf & m & Hres & _).
    now exists (nf, m).
Qed.

Lemma returns_iff_valid_witness :
  ((exists r, calculate_noise_floor defopts [0.5; 0.25] 30 = Ok r)
   <-> valid_input defopts [0.5; 0.25] 30) /\
  (~ valid_input defopts [0.5; 0.25] 30 ->
   calculate_noise_floor defopts [0.5; 0.25] 30 = Raise ValueError).
Proof.
  apply returns_iff_valid; vm_compute; discriminate.
Defined.

(** ** float64 rounding *)

Lemma pow2_pos (e : Z) : 0 < pow2 e.
Proof. apply Qpower_0_lt. reflexivity. Qed.

Lemma pow2_add (a b : Z) : pow2 (a + b) == pow2 a * pow2 b.
Proof. apply Qpower_plus. discriminate. Qed.

Lemma pow2_nonneg (n : Z) : (0 <= n)%Z -> pow2 n == inject_Z (2 ^ n).
Proof. intros H. unfold pow2. now rewrite Zpower_Qpower. Qed.

Lemma pow2_lt_inv (n m : Z) : pow2 n < pow2 m -> (n < m)%Z.
Proof. intros H. apply (Qpower_lt_compat_l_inv 2); [exact H | reflexivity]. Qed.

(** [round_half_even] never crosses an integer. *)
Lemma round_half_even_ge (x : Q) (m : Z) :
  inject_Z m <= x -> (m <= round_half_even x)%Z.
Proof.
  intros H. apply Qfloor_resp_le in H. rewrite Qfloor_Z in H.
  unfold round_half_even. destruct (Qcompare _ _); [destruct (Z.even _) | |]; lia.
Qed.

Lemma round_half_even_le (x : Q) (m : Z) :
  x <= inject_Z m -> (round_half_even x <= m)%Z.
Proof.
  intros H. pose proof (Qfloor_le x) as Hf. pose proof (Qlt_floor x) as Hc.
  assert (Hfm : (Qfloor x <= m)%Z).
  { apply Qfloor_resp_le in H. now rewrite Qfloor_Z in H. }
  destruct (Z.eq_dec (Qfloor x) m) as [Heq | Hne].
  - assert (Hx : x - inject_Z (Qfloor x) == 0).
    { rewrite Heq in *. lra. }
    unfold round_half_even.
    assert (Hcmp : Qcompare (x - inject_Z (Qfloor x)) (1 # 2) = Lt).
    { apply Qlt_alt. rewrite Hx. reflexivity. }
    rewrite Hcmp. lia.
  - unfold round_half_even.
    destruct (Qcompare _ _); [destruct (Z.even _) | |]; lia.
Qed.

(** The exponent found by [Qlog2] is not above the magnitude. *)
Lemma Qlog2_le (q : Q) : ~ q == 0 -> pow2 (Qlog2 q) <= Qabs q.
Proof.
  intros Hq. unfold Qlog2.
  set (a := Z.abs (Qnum q)). set (b := Zpos (Qden q)).
  destruct (Qle_bool (pow2 (Z.log2 a - Z.log2 b)) (Qabs q)) eqn:E.
  - now apply Qle_bool_iff.
  - assert (Ha : (0 < a)%Z).
    { unfold a. destruct q as [n d]. unfold Qeq in Hq. simpl in *. lia. }
    assert (Hb : (0 < b)%Z) by (unfold b; lia).
    destruct (Z.log2_spec a Ha) as [Ha1 _].
    destruct (Z.log2_spec b Hb) as [_ Hb2].
    pose proof (Z.log2_nonneg a) as Hla. pose proof (Z.log2_nonneg b) as Hlb.
    assert (Habs : Qabs q == inject_Z a / inject_Z b).
    { destruct q as [n d]. unfold a, b. simpl. apply Qmake_Qdiv. }
    rewrite Habs.
    replace (Z.log2 a - Z.log2 b - 1)%Z
      with (Z.log2 a + - (Z.succ (Z.log2 b)))%Z by lia.
    rewrite pow2_add. unfold pow2 at 2. rewrite Qpower_opp. fold (pow2 (Z.succ (Z.log2 b))).
    rewrite !pow2_nonneg by lia.
    assert (Hbq : 0 < inject_Z b) by (rewrite (Zlt_Qlt 0 b) in Hb; exact Hb).
    assert (H2q : 0 < inject_Z (2 ^ Z.succ (Z.log2 b))).
    { rewrite <- (Zlt_Qlt 0). lia. }
    rewrite Zle_Qle in Ha1. apply Z.lt_le_incl in Hb2. rewrite Zle_Qle in Hb2.
    apply Qle_shift_div_l; [exact Hbq |].
    assert (Hinv : / inject_Z (2 ^ Z.succ (Z.log2 b)) * inject_Z b <= 1).
    { apply (Qmult_le_l _ _ (inject_Z (2 ^ Z.succ (Z.log2 b)))); [exact H2q |].
      rewrite Qmult_assoc, Qmult_inv_r by lra. lra. }
    assert (H2a : 0 <= inject_Z (2 ^ Z.log2 a)).
    { rewrite <- (Zle_Qle 0). lia. }
    rewrite <- Qmult_assoc.
    eapply Qle_trans; [| exact Ha1].
    set (u := inject_Z (2 ^ Z.log2 a)) in *.
    set (v := / inject_Z (2 ^ Z.succ (Z.log2 b)) * inject_Z b) in *.
    nra.
Qed.

Lemma Qlog2_lt (q : Q) (n : Z) : ~ q == 0 -> Qabs q < pow2 n -> (Qlog2 q < n)%Z.
Proof.
  intros Hq Hlt. apply pow2_lt_inv.
  eapply Qle_lt_trans; [apply Qlog2_le, Hq | exact Hlt].
Qed.

(** A number between two points of its own float64 grid rounds between
    them. *)
Lemma round64_bracket (q : Q) (a b : Z) :
  ~ q == 0 ->
  inject_Z a * pow2 (float64_exponent q) <= q ->
  q <= inject_Z b * pow2 (float64_exponent q) ->
  inject_Z a * pow2 (float64_exponent q) <= round64 q /\
  round64 q <= inject_Z b * pow2 (float64_exponent q).
Proof.
  intros Hq Hlo Hhi. unfold round64.
  destruct (Qeq_bool q 0) eqn:E; [apply Qeq_bool_iff in E; contradiction |].
  set (e := float64_exponent q) in *.
  pose proof (pow2_pos e) as Hp.
  assert (Ha : (a <= round_half_even (q / pow2 e))%Z).
  { apply round_half_even_ge. apply Qle_shift_div_l; assumption. }
  assert (Hb : (round_half_even (q / pow2 e) <= b)%Z).
  { apply round_half_even_le. apply Qle_shift_div_r; assumption. }
  rewrite Zle_Qle in Ha, Hb.
  split; apply Qmult_le_compat_r; lra.
Qed.

(** [z / 2^j] lies on every grid of exponent at most [-j]. *)
Lemma on_grid (z : Z) (j e : Z) :
  (0 <= j)%Z -> (e <= - j)%Z ->
  inject_Z z * pow2 (- j) == inject_Z (z * 2 ^ (- j - e)) * pow2 e.
Proof.
  intros Hj He. rewrite inject_Z_mult.
  rewrite <- (pow2_nonneg (- j - e)) by lia.
  rewrite <- Qmult_assoc, <- pow2_add.
  replace (- j - e + e)%Z with (- j)%Z by lia. reflexivity.
Qed.

Lemma float64_exponent_le (q : Q) (n : Z) :
  ~ q == 0 -> Qabs q < pow2 n -> (-1074 <= n - 53)%Z ->
  (float64_exponent q <= n - 53)%Z.
Proof.
  intros Hq Hlt Hn. pose proof (Qlog2_lt q n Hq Hlt). unfold float64_exponent. lia.
Qed.

(** An integer below 2^53 is a float64. *)
Lemma round64_int (z : Z) :
  (0 <= z < 2 ^ 53)%Z -> round64 (inject_Z z) == inject_Z z.
Proof.
  intros [Hz0 Hz1].
  destruct (Z.eq_dec z 0%Z) as [-> | Hnz]; [reflexivity |].
  assert (Hq : ~ inject_Z z == 0).
  { intros H. unfold Qeq in H. simpl in H. lia. }
  assert (He : (float64_exponent (inject_Z z) <= 0)%Z).
  { apply (float64_exponent_le _ 53 Hq); [| lia].
    rewrite Qabs_pos by (rewrite <- (Zle_Qle 0); lia).
    rewrite pow2_nonneg by lia. now rewrite <- Zlt_Qlt. }
  pose proof (on_grid z 0%Z _ ltac:(lia) He) as Hg.
  change (pow2 (- 0)) with 1 in Hg. rewrite Qmult_1_r in Hg.
  set (m := (z * 2 ^ (- 0 - float64_exponent (inject_Z z)))%Z) in *.
  destruct (round64_bracket (inject_Z z) m m Hq) as [H1 H2].
  - rewrite <- Hg. apply Qle_refl.
  - rewrite <- Hg. apply Qle_refl.
  - rewrite <- Hg in H1, H2. now apply Qle_antisym.
Qed.

(** [int] of a float that lies between an integer and the next one. *)
Lemma py_int_between (y : Q) (k : Z) :
  (0 <= k)%Z -> inject_Z k <= y -> y < inject_Z k + 1 -> py_int y = k.
Proof.
  intros Hk Hlo Hhi.
  assert (Hk0 : 0 <= inject_Z k) by (rewrite <- (Zle_Qle 0); exact Hk).
  destruct (py_int_truncates y) as (H1 & H2 & H3 & _).
  assert (Hn : (0 <= py_int y)%Z) by (apply H3; lra).
  assert (Hn0 : 0 <= inject_Z (py_int y)) by (rewrite <- (Zle_Qle 0); exact Hn).
  rewrite (Qabs_pos y) in H1, H2 by lra.
  rewrite (Qabs_pos (inject_Z (py_int y))) in H1, H2 by exact Hn0.
  assert (Ha : inject_Z (py_int y) < inject_Z (k + 1)).
  { rewrite inject_Z_plus. change (inject_Z 1) with 1. lra. }
  assert (Hb : inject_Z k < inject_Z (py_int y + 1)).
  { rewrite inject_Z_plus. change (inject_Z 1) with 1. lra. }
  rewrite <- Zlt_Qlt in Ha, Hb. lia.
Qed.

(** The size computed from an option [x] whose float64 [c] is at least
    [1 / D] and so close to it that, for a rate below 2^52, the product stays
    [2^-j] short of the next integer: the rate divided by [D]. *)
Lemma py_int_float_product (x : Q) (D j sample_rate : Z) :
  (0 < D)%Z -> (0 <= j <= 53)%Z ->
  (0 <= sample_rate < 2 ^ 52)%Z ->
  (2 ^ 52 + D <= D * 2 ^ (53 - j))%Z ->
  1 / inject_Z D <= round64 x ->
  round64 x * inject_Z (2 ^ 52)
  <= inject_Z (2 ^ 52) / inject_Z D + (1 / inject_Z D - pow2 (- j)) ->
  py_int (float_product x sample_rate) = Z.quot sample_rate D.
Proof.
  intros HD [Hj Hj53] [Hsr0 Hsr1] Hgrid Hc1 Hc2.
  rewrite Z.quot_div_nonneg by lia.
  unfold float_product. set (c := round64 x) in *.
  assert (HDq : 0 < inject_Z D) by (rewrite (Zlt_Qlt 0 D) in HD; exact HD).
  assert (Hinv : 0 < 1 / inject_Z D) by (apply Qlt_shift_div_l; lra).
  destruct (Z.eq_dec sample_rate 0%Z) as [-> | Hnz].
  - assert (E : Qeq_bool (c * round64 (inject_Z 0)) 0 = true).
    { apply Qeq_bool_iff. change (round64 (inject_Z 0)) with 0. ring. }
    unfold round64 at 1. rewrite E. reflexivity.
  - pose proof (round64_int sample_rate ltac:(lia)) as Hs.
    set (s' := round64 (inject_Z sample_rate)) in *.
    set (k := (sample_rate / D)%Z).
    pose proof (Z.div_pos sample_rate D Hsr0 HD) as Hk0. fold k in Hk0.
    pose proof (Z.mul_div_le sample_rate D HD) as Hk1. fold k in Hk1.
    pose proof (Z.mul_succ_div_gt sample_rate D HD) as Hk2. fold k in Hk2.
    assert (Hsq : 0 < inject_Z sample_rate).
    { rewrite <- (Zlt_Qlt 0). lia. }
    assert (Hsq1 : inject_Z sample_rate <= inject_Z (2 ^ 52)).
    { rewrite <- Zle_Qle. lia. }
    assert (Hk1q : inject_Z D * inject_Z k <= inject_Z sample_rate).
    { rewrite <- inject_Z_mult, <- Zle_Qle. exact Hk1. }
    assert (Hk2q : inject_Z sample_rate + 1 <= inject_Z D * (inject_Z k + 1)).
    { change 1 with (inject_Z 1).
      rewrite <- !inject_Z_plus, <- inject_Z_mult, <- Zle_Qle. lia. }
    assert (Hdiv : inject_Z sample_rate / inject_Z D * inject_Z D
                   == inject_Z sample_rate) by (field; lra).
    assert (Hone : 1 / inject_Z D * inject_Z D == 1) by (field; lra).
    assert (H52 : inject_Z (2 ^ 52) / inject_Z D * inject_Z D
                  == inject_Z (2 ^ 52)) by (field; lra).
    set (q := inject_Z sample_rate / inject_Z D) in *.
    set (u := 1 / inject_Z D) in *.
    set (w := inject_Z (2 ^ 52) / inject_Z D) in *.
    pose proof (pow2_pos (- j)) as Hpj.
    (* the exact product and its bounds *)
    assert (Hlo : inject_Z k <= c * s').
    { rewrite Hs.
      assert (Ha : u * (inject_Z D * inject_Z k) <= u * inject_Z sample_rate).
      { apply Qmult_le_l; [exact Hinv | exact Hk1q]. }
      assert (Hb : u * (inject_Z D * inject_Z k) == inject_Z k).
      { rewrite Qmult_assoc, Hone. ring. }
      assert (Hc : u * inject_Z sample_rate <= c * inject_Z sample_rate).
      { apply Qmult_le_compat_r; lra. }
      lra. }
    assert (Hhi : c * s' <= inject_Z k + 1 - pow2 (- j)).
    { rewrite Hs.
      assert (c * inject_Z sample_rate
              <= q + (u - pow2 (- j))).
      { assert (Hcu : 0 <= c - u) by lra.
        assert (Hq : c * inject_Z sample_rate
                     == q + (c - u) * inject_Z sample_rate).
        { unfold q, u. field. lra. }
        assert (Hw : (c - u) * inject_Z (2 ^ 52) <= u - pow2 (- j)).
        { assert (Hwu : w == u * inject_Z (2 ^ 52)) by (unfold w, u; field; lra).
          lra. }
        rewrite Hq. nra. }
      assert (q + u <= inject_Z k + 1); [| lra].
      assert (Hqu : (q + u) * inject_Z D == inject_Z sample_rate + 1)
        by (unfold q, u; field; lra).
      apply (Qmult_le_r _ _ (inject_Z D)); [exact HDq |].
      rewrite Hqu. lra. }
    assert (Hpos : 0 < c * s').
    { rewrite Hs. apply Qmult_lt_0_compat; lra. }
    assert (Hp : ~ c * s' == 0).
    { intros H0. rewrite H0 in Hpos. discriminate. }
    assert (He : (float64_exponent (c * s') <= - j)%Z).
    { replace (- j)%Z with (53 - j - 53)%Z by lia.
      apply float64_exponent_le; [exact Hp | | lia].
      rewrite Qabs_pos by lra.
      rewrite pow2_nonneg by lia.
      assert (inject_Z k + 1 <= inject_Z (2 ^ (53 - j))); [| lra].
      change 1 with (inject_Z 1). rewrite <- inject_Z_plus, <- Zle_Qle.
      assert (D * (k + 1) <= D * 2 ^ (53 - j))%Z by lia.
      nia. }
    set (e := float64_exponent (c * s')) in *.
    pose proof (on_grid k 0%Z e ltac:(lia) ltac:(lia)) as Hg1.
    change (pow2 (- 0)) with 1 in Hg1. rewrite Qmult_1_r in Hg1.
    pose proof (on_grid (2 ^ j * (k + 1) - 1) j e Hj He) as Hg2.
    assert (Hup : inject_Z (2 ^ j * (k + 1) - 1) * pow2 (- j)
                  == inject_Z k + 1 - pow2 (- j)).
    { unfold Zminus. rewrite inject_Z_plus, inject_Z_mult, inject_Z_plus.
      rewrite <- (pow2_nonneg j) by lia.
      assert (Hjj : pow2 j * pow2 (- j) == 1).
      { rewrite <- pow2_add. replace (j + - j)%Z with 0%Z by lia. reflexivity. }
      change (inject_Z 1) with 1. change (inject_Z (- (1))) with (-1).
      set (t := pow2 j) in *. set (v := pow2 (- j)) in *. nra. }
    destruct (round64_bracket (c * s')
                (k * 2 ^ (- 0 - e)) ((2 ^ j * (k + 1) - 1) * 2 ^ (- j - e)) Hp)
      as [Hr1 Hr2].
    { fold e. rewrite <- Hg1. exact Hlo. }
    { fold e. rewrite <- Hg2, Hup. exact Hhi. }
    fold e in Hr1, Hr2. rewrite <- Hg1 in Hr1. rewrite <- Hg2, Hup in Hr2.
    apply py_int_between; [exact Hk0 | exact Hr1 | lra].
Qed.

Lemma pow2_le (n m : Z) : (n <= m)%Z -> pow2 n <= pow2 m.
Proof. intros H. apply Qpower_le_compat_l; [exact H | discriminate]. Qed.

(** The power of two after the one found by [Qlog2] is above the
    magnitude. *)
Lemma Qlog2_gt (q : Q) : ~ q == 0 -> Qabs q < pow2 (Qlog2 q + 1).
Proof.
  intros Hq. unfold Qlog2.
  set (a := Z.abs (Qnum q)). set (b := Zpos (Qden q)).
  destruct (Qle_bool (pow2 (Z.log2 a - Z.log2 b)) (Qabs q)) eqn:E.
  - assert (Ha : (0 < a)%Z).
    { unfold a. destruct q as [n d]. unfold Qeq in Hq. simpl in *. lia. }
    assert (Hb : (0 < b)%Z) by (unfold b; lia).
    destruct (Z.log2_spec a Ha) as [_ Ha2].
    destruct (Z.log2_spec b Hb) as [Hb1 _].
    pose proof (Z.log2_nonneg a) as Hla. pose proof (Z.log2_nonneg b) as Hlb.
    assert (Habs : Qabs q == inject_Z a / inject_Z b).
    { destruct q as [n d]. unfold a, b. simpl. apply Qmake_Qdiv. }
    rewrite Habs.
    replace (Z.log2 a - Z.log2 b + 1)%Z
      with (Z.succ (Z.log2 a) + - Z.log2 b)%Z by lia.
    rewrite pow2_add. unfold pow2 at 2. rewrite Qpower_opp. fold (pow2 (Z.log2 b)).
    rewrite !pow2_nonneg by lia.
    assert (Hbq : 0 < inject_Z b) by (rewrite (Zlt_Qlt 0 b) in Hb; exact Hb).
    assert (H2q : 0 < inject_Z (2 ^ Z.log2 b)).
    { rewrite <- (Zlt_Qlt 0). lia. }
    rewrite Zlt_Qlt in Ha2. rewrite Zle_Qle in Hb1.
    apply Qlt_shift_div_r; [exact Hbq |].
    assert (Hinv : 1 <= / inject_Z (2 ^ Z.log2 b) * inject_Z b).
    { apply (Qmult_le_l _ _ (inject_Z (2 ^ Z.log2 b))); [exact H2q |].
      rewrite Qmult_assoc, Qmult_inv_r by lra. lra. }
    assert (H2a : 0 < inject_Z (2 ^ Z.succ (Z.log2 a))).
    { rewrite <- (Zlt_Qlt 0). lia. }
    rewrite <- Qmult_assoc.
    eapply Qlt_le_trans; [exact Ha2 |].
    set (u := inject_Z (2 ^ Z.succ (Z.log2 a))) in *.
    set (v := / inject_Z (2 ^ Z.log2 b) * inject_Z b) in *.
    nra.
  - replace (Z.log2 a - Z.log2 b - 1 + 1)%Z with (Z.log2 a - Z.log2 b)%Z by lia.
    apply Qnot_le_lt. intros H. apply Qle_bool_iff in H. congruence.
Qed.

(** Rounding never goes below a power of two in the normal range that the
    number has reached. *)
Lemma round64_ge_pow2 (q : Q) (n : Z) :
  (-1022 <= n)%Z -> pow2 n <= q -> pow2 n <= round64 q.
Proof.
  intros Hn Hq. pose proof (pow2_pos n) as Hp.
  assert (Hq0 : ~ q == 0) by (intros H; rewrite H in Hq; lra).
  assert (Hqa : Qabs q == q) by (apply Qabs_pos; lra).
  pose proof (Qlog2_le q Hq0) as Hl1. pose proof (Qlog2_gt q Hq0) as Hl2.
  rewrite Hqa in Hl1, Hl2.
  assert (HnL : (n <= Qlog2 q)%Z).
  { assert (H : pow2 n < pow2 (Qlog2 q + 1)) by lra.
    apply pow2_lt_inv in H. lia. }
  assert (He : float64_exponent q = (Qlog2 q - 52)%Z)
    by (unfold float64_exponent; lia).
  assert (Hg1 : inject_Z (2 ^ 52) * pow2 (float64_exponent q) == pow2 (Qlog2 q)).
  { rewrite He, <- pow2_nonneg, <- pow2_add by lia.
    replace (52 + (Qlog2 q - 52))%Z with (Qlog2 q) by lia. reflexivity. }
  assert (Hg2 : inject_Z (2 ^ 53) * pow2 (float64_exponent q)
                == pow2 (Qlog2 q + 1)).
  { rewrite He, <- pow2_nonneg, <- pow2_add by lia.
    replace (53 + (Qlog2 q - 52))%Z with (Qlog2 q + 1)%Z by lia. reflexivity. }
  destruct (round64_bracket q (2 ^ 52) (2 ^ 53) Hq0) as [H1 _].
  - rewrite Hg1. exact Hl1.
  - rewrite Hg2. apply Qlt_le_weak, Hl2.
  - rewrite Hg1 in H1.
    eapply Qle_trans; [apply (pow2_le n (Qlog2 q) HnL) | exact H1].
Qed.

Lemma py_int_ge_one (y : Q) : 1 <= y -> (1 <= py_int y)%Z.
Proof.
  intros Hy. destruct (py_int_truncates y) as (_ & H2 & H3 & _).
  assert (Hn : (0 <= py_int y)%Z) by (apply H3; lra).
  rewrite (Qabs_pos y) in H2 by lra.
  rewrite (Qabs_pos (inject_Z (py_int y))) in H2
    by (rewrite <- (Zle_Qle 0); exact Hn).
  assert (H : 0 < inject_Z (py_int y)) by lra.
  rewrite <- (Zlt_Qlt 0) in H. lia.
Qed.

(** From 2^52 Hz on, the size computed from an option of at least 2^-52 s is
    at least one sample. *)
Lemma float_product_ge_one (x : Q) (sample_rate : Z) :
  (2 ^ 52 <= sample_rate)%Z -> pow2 (-52) <= round64 x ->
  1 <= float_product x sample_rate.
Proof.
  intros Hsr Hc. unfold float_product.
  assert (Hs : pow2 52 <= round64 (inject_Z sample_rate)).
  { apply round64_ge_pow2; [lia |].
    rewrite pow2_nonneg by lia. now rewrite <- Zle_Qle. }
  change 1 with (pow2 0). apply round64_ge_pow2; [lia |].
  pose proof (pow2_pos (-52)) as Hp1. pose proof (pow2_pos 52) as Hp2.
  assert (Hone : pow2 (-52) * pow2 52 == pow2 0).
  { rewrite <- pow2_add. reflexivity. }
  rewrite <- Hone.
  apply Qle_trans with (pow2 (-52) * round64 (inject_Z sample_rate)).
  - apply Qmult_le_l; [exact Hp1 | exact Hs].
  - apply Qmult_le_compat_r; [exact Hc | lra].
Qed.

(** ** The default configuration *)

Lemma defopts_sizes (sample_rate : Z) :
  (0 <= sample_rate < 2 ^ 52)%Z ->
  window_size defopts sample_rate = Z.quot sample_rate 20 /\
  skip_size defopts sample_rate = Z.quot sample_rate 50.
Proof.
  intros Hsr. unfold window_size, skip_size. split.
  - apply (py_int_float_product _ 20 5); try lia; vm_compute; discriminate.
  - apply (py_int_float_product _ 50 6); try lia; vm_compute; discriminate.
Qed.

(** From 2^52 Hz on the sizes are at least one sample. *)
Lemma defopts_sizes_large (sample_rate : Z) :
  (2 ^ 52 <= sample_rate)%Z ->
  (1 <= window_size defopts sample_rate)%Z /\
  (1 <= skip_size defopts sample_rate)%Z.
Proof.
  intros Hsr. unfold window_size, skip_size.
  split; apply py_int_ge_one, float_product_ge_one;
    try exact Hsr; vm_compute; discriminate.
Qed.

(** The bound on the rate is needed for the sizes: at 8000000000000019 Hz,
    below 2^53, the float64 product 0.05 * sample_rate rounds up to the next
    integer. *)
Lemma default_window_beyond_bound :
  (8000000000000019 < 2 ^ 53)%Z /\
  window_size defopts 8000000000000019 = 400000000000001%Z /\
  Z.quot 8000000000000019 20 = 400000000000000%Z.
Proof. repeat split; vm_compute; reflexivity. Qed.

(** X4. With the default configuration and a sample rate within the float64
    range: below 2^52 Hz the sizes are sample_rate / 20 and sample_rate / 50
    samples (fractions dropped), the rounding of the float64 products
    notwithstanding; and on a non-empty signal the estimator returns exactly
    when the sample rate is at least 50 Hz: below 50 Hz the skip is 0 samples
    and it raises ValueError. *)
Theorem default_configuration_needs_50_hz (data : list Q) (sample_rate : Z) :
  data <> [] ->
  (0 <= sample_rate < 2 ^ 1023)%Z ->
  ((sample_rate < 2 ^ 52)%Z ->
   window_size defopts sample_rate = Z.quot sample_rate 20 /\
   skip_size defopts sample_rate = Z.quot sample_rate 50) /\
  ((50 <= sample_rate)%Z ->
   exists nfloor_amp max_amp,
     calculate_noise_floor defopts data sample_rate = Ok (nfloor_amp, max_amp)) /\
  ((sample_rate < 50)%Z ->
   calculate_noise_floor defopts data sample_rate = Raise ValueError).
Proof.
  intros Hne [Hsr0 _]. split; [| split].
  - intros Hsr. apply defopts_sizes. lia.
  - intros H50.
    destruct (calculate_noise_floor_returns defopts data sample_rate)
      as (nf & m & Hres & _); [| now exists nf, m].
    split; [exact Hne |].
    destruct (Z.lt_ge_cases sample_rate (2 ^ 52)) as [Hsr | Hsr].
    + destruct (defopts_sizes sample_rate) as (Hw & Hs); [lia |].
      rewrite Hw, Hs. rewrite !Z.quot_div_nonneg by lia.
      split; apply Z.div_le_lower_bound; lia.
    + now apply defopts_sizes_large.
  - intros H50. apply zero_skip_raises; [exact Hne |].
    destruct (defopts_sizes sample_rate) as (_ & Hs); [lia |].
    rewrite Hs. apply Z.quot_small. lia.
Qed.

Lemma default_configuration_needs_50_hz_witness :
  ((44100 < 2 ^ 52)%Z ->
   window_size defopts 44100 = Z.quot 44100 20 /\
   skip_size defopts 44100 = Z.quot 44100 50) /\
  ((50 <= 44100)%Z ->
   exists nfloor_amp max_amp,
     calculate_noise_floor defopts [0.5; -0.25] 44100 = Ok (nfloor_amp, max_amp)) /\
  ((44100 < 50)%Z ->
   calculate_noise_floor defopts [0.5; -0.25] 44100 = Raise ValueError).
Proof.
  apply default_configuration_needs_50_hz;
    [discriminate | split; vm_compute; [discriminate | reflexivity]].
Defined.

(** ** What the scan leaves behind *)

Lemma scan_step_halt (self : AudioPreprocessor) (data : list Q) (w : Z)
    (max_amp : Q) (i : Z) (rest : list Z) (st : scan_state) (x : Q) :
  np_max (np_abs (py_slice data i (i + w))) = Ok x ->
  Qlt_bool (threshold self max_amp (nfloor_amplitudes st)) x = true ->
  scan self data w max_amp (i :: rest) st
  = Ok {| nfloor_amplitudes := nfloor_amplitudes st;
          visited := visited st ++ [i]; halted := true |}.
Proof. intros Hx Hc. simpl. rewrite Hx. simpl. now rewrite Hc. Qed.

Lemma scan_step_accept (self : AudioPreprocessor) (data : list Q) (w : Z)
    (max_amp : Q) (i : Z) (rest : list Z) (st : scan_state) (x : Q) :
  np_max (np_abs (py_slice data i (i + w))) = Ok x ->
  Qlt_bool (threshold self max_amp (nfloor_amplitudes st)) x = false ->
  scan self data w max_amp (i :: rest) st
  = scan self data w max_amp rest
      {| nfloor_amplitudes := nfloor_amplitudes st ++ [x];
         visited := visited st ++ [i]; halted := false |}.
Proof. intros Hx Hc. simpl. rewrite Hx. simpl. now rewrite Hc. Qed.

Lemma scan_inv_init (self : AudioPreprocessor) (data : list Q) (w : Z)
    (max_amp : Q) :
  scan_inv self data w max_amp scan_init.
Proof.
  split; [reflexivity |]. split; [| discriminate].
  intros n x Hn. simpl in Hn. now rewrite lookup_nil in Hn.
Qed.

Lemma scan_inv_preserved (self : AudioPreprocessor) (data : list Q) (w : Z)
    (max_amp : Q) (offsets : list Z) (st st' : scan_state) :
  scan self data w max_amp offsets st = Ok st' ->
  halted st = false ->
  scan_inv self data w max_amp st ->
  scan_inv self data w max_amp st'.
Proof.
  revert st. induction offsets as [|i rest IH]; intros st Hscan Hrun Hinv.
  - simpl in Hscan. injection Hscan as <-. exact Hinv.
  - destruct Hinv as (Hlen & Hacc & _). rewrite Hrun, Nat.add_0_r in Hlen.
    destruct (np_max (np_abs (py_slice data i (i + w)))) as [x | e] eqn:Hx;
      [| simpl in Hscan; rewrite Hx in Hscan; discriminate].
    destruct (Qlt_bool (threshold self max_amp (nfloor_amplitudes st)) x) eqn:Hc.
    + rewrite (scan_step_halt _ _ _ _ _ _ _ _ Hx Hc) in Hscan.
      injection Hscan as <-. split; [| split]; simpl.
      * rewrite length_app. simpl. lia.
      * intros n y Hn. destruct (Hacc n y Hn) as (j & Hj & Hm & Hle).
        exists j. split; [| now split].
        rewrite lookup_app_l; [exact Hj |]. now apply lookup_lt_Some in Hj.
      * intros _. exists i, x. split; [apply last_snoc |].
        split; [exact Hx |]. now apply Qlt_bool_iff.
    + rewrite (scan_step_accept _ _ _ _ _ _ _ _ Hx Hc) in Hscan.
      apply IH in Hscan; [exact Hscan | reflexivity |].
      split; [| split]; simpl.
      * rewrite !length_app. simpl. lia.
      * intros n y Hn.
        destruct (decide (n < length (nfloor_amplitudes st))%nat) as [Hlt | Hge].
        -- rewrite lookup_app_l in Hn by exact Hlt.
           destruct (Hacc n y Hn) as (j & Hj & Hm & Hle).
           exists j. split; [| split; [exact Hm |]].
           ++ rewrite lookup_app_l; [exact Hj |]. now apply lookup_lt_Some in Hj.
           ++ rewrite take_app_le by lia. exact Hle.
        -- assert (n = length (nfloor_amplitudes st)) as ->.
           { apply lookup_lt_Some in Hn. rewrite length_app in Hn. simpl in Hn. lia. }
           rewrite list_lookup_middle in Hn by reflexivity. injection Hn as <-.
           exists i. split; [| split; [exact Hx |]].
           ++ now rewrite list_lookup_middle.
           ++ rewrite take_app_length. now apply Qlt_bool_false_iff.
      * discriminate.
Qed.

(** The scan of a valid input, with the offsets it ran over. *)
Lemma noise_floor_scan_inv (self : AudioPreprocessor) (data : list Q)
    (sample_rate : Z) :
  valid_input self data sample_rate ->
  exists max_amp st offsets,
    noise_floor_scan self data sample_rate = Ok (max_amp, st) /\
    py_range 0 (Z.of_nat (length data) - window_size self sample_rate)
      (skip_size self sample_rate) = Ok offsets /\
    visited st `prefix_of` offsets /\
    (halted st = false -> visited st = offsets) /\
    scan_inv self data (window_size self sample_rate) max_amp st.
Proof.
  intros Hvalid.
  destruct (noise_floor_scan_returns self data sample_rate Hvalid)
    as (m & st & Hscan & Hm & _).
  destruct Hvalid as (Hne & Hw & Hs).
  destruct (py_range_offsets
              (Z.of_nat (length data) - window_size self sample_rate)
              (skip_size self sample_rate)) as (offsets & Hr & _); [lia |].
  exists m, st, offsets. split; [exact Hscan |]. split; [exact Hr |].
  unfold noise_floor_scan in Hscan. rewrite Hm, Hr in Hscan. simpl in Hscan.
  bind_inv Hscan. injection Hscan as <-.
  destruct (scan_visited _ _ _ _ _ _ _ Hx) as (pre & Hv & Hpre & Hall).
  simpl in Hv. subst pre. split; [exact Hpre |]. split.
  - intros Hh. now apply Hall.
  - apply (scan_inv_preserved _ _ _ _ _ _ _ Hx); [reflexivity |].
    apply scan_inv_init.
Qed.

(** X5. On valid input, every accepted value is the maximum of the window
    at the offset entered at the same rank, and it does not exceed the
    threshold computed from the values accepted before it (the window under
    test is not part of its own threshold). *)
Theorem accepted_windows_under_threshold (self : AudioPreprocessor)
    (data : list Q) (sample_rate : Z) :
  valid_input self data sample_rate ->
  exists max_amp st,
    noise_floor_scan self data sample_rate = Ok (max_amp, st) /\
    forall n x, nfloor_amplitudes st !! n = Some x ->
      exists i, visited st !! n = Some i /\
                window_max_at data (window_size self sample_rate) i = Ok x /\
                x <= threshold self max_amp (take n (nfloor_amplitudes st)).
Proof.
  intros Hvalid.
  destruct (noise_floor_scan_inv self data sample_rate Hvalid)
    as (m & st & offsets & Hscan & _ & _ & _ & (_ & Hacc & _)).
  exists m, st. split; [exact Hscan | exact Hacc].
Qed.

Lemma accepted_windows_under_threshold_witness :
  exists max_amp st,
    noise_floor_scan defopts [0; 0; 0; 0; 0; 0; 0.01; 0.02; 0.5; -0.9; 0.3; 0] 100
      = Ok (max_amp, st) /\
    forall n x, nfloor_amplitudes st !! n = Some x ->
      exists i, visited st !! n = Some i /\
                window_max_at [0; 0; 0; 0; 0; 0; 0.01; 0.02; 0.5; -0.9; 0.3; 0]
                  (window_size defopts 100) i = Ok x /\
                x <= threshold defopts max_amp (take n (nfloor_amplitudes st)).
Proof.
  apply accepted_windows_under_threshold.
  split; [discriminate | split; vm_compute; discriminate].
Defined.

(** X6. On valid input the scan ends in one of two ways.  Either it halts:
    it has entered one offset more than it accepted windows, these offsets
    are the first ones of the range, and the maximum of the last window
    entered exceeds the threshold of the accepted values.  Or it runs over
    the whole range and accepts a window at every offset. *)
Theorem scan_halts_or_completes (self : AudioPreprocessor) (data : list Q)
    (sample_rate : Z) :
  valid_input self data sample_rate ->
  exists max_amp st offsets,
    noise_floor_scan self data sample_rate = Ok (max_amp, st) /\
    py_range 0 (Z.of_nat (length data) - window_size self sample_rate)
      (skip_size self sample_rate) = Ok offsets /\
    if halted st
    then visited st = take (S (length (nfloor_amplitudes st))) offsets /\
         exists i x,
           offsets !! length (nfloor_amplitudes st) = Some i /\
           window_max_at data (window_size self sample_rate) i = Ok x /\
           threshold self max_amp (nfloor_amplitudes st) < x
    else visited st = offsets /\
         length (nfloor_amplitudes st) = length offsets.
Proof.
  intros Hvalid.
  destruct (noise_floor_scan_inv self data sample_rate Hvalid)
    as (m & st & offsets & Hscan & Hr & Hpre & Hall & (Hlen & _ & Hhalt)).
  exists m, st, offsets. split; [exact Hscan |]. split; [exact Hr |].
  destruct (halted st).
  - destruct Hpre as (suf & ->).
    destruct (Hhalt eq_refl) as (i & x & Hlast & Hx & Hlt).
    split.
    + replace (S (length (nfloor_amplitudes st))) with (length (visited st)) by lia.
      now rewrite take_app_length.
    + exists i, x. split; [| now split].
      rewrite last_lookup in Hlast.
      replace (Init.Nat.pred (length (visited st)))
        with (length (nfloor_amplitudes st)) in Hlast by lia.
      rewrite lookup_app_l; [exact Hlast |]. lia.
  - specialize (Hall eq_refl). split; [exact Hall |].
    rewrite <- Hall. lia.
Qed.

Lemma scan_halts_or_completes_witness :
  exists max_amp st offsets,
    noise_floor_scan defopts [0; 0; 0; 0; 0; 0; 0.01; 0.02; 0.5; -0.9; 0.3; 0] 100
      = Ok (max_amp, st) /\
    py_range 0
      (Z.of_nat (length [0; 0; 0; 0; 0; 0; 0.01; 0.02; 0.5; -0.9; 0.3; 0])
       - window_size defopts 100)
      (skip_size defopts 100) = Ok offsets /\
    if halted st
    then visited st = take (S (length (nfloor_amplitudes st))) offsets /\
         exists i x,
           offsets !! length (nfloor_amplitudes st) = Some i /\
           window_max_at [0; 0; 0; 0; 0; 0; 0.01; 0.02; 0.5; -0.9; 0.3; 0]
             (window_size defopts 100) i = Ok x /\
           threshold defopts max_amp (nfloor_amplitudes st) < x
    else visited st = offsets /\
         length (nfloor_amplitudes st) = length offsets.
Proof.
  apply scan_halts_or_completes.
  split; [discriminate | split; vm_compute; discriminate].
Defined.

(** ** Polarity *)

Lemma Qabs_opp_eq (x : Q) : Qabs (- x) = Qabs x.
Proof. destruct x as [a b]. unfold Qabs, Qopp. simpl. f_equal. apply Z.abs_opp. Qed.

Lemma np_abs_slice (data : list Q) (lo hi : Z) :
  np_abs (py_slice data lo hi) = py_slice (np_abs data) lo hi.
Proof.
  unfold np_abs, py_slice. rewrite length_fmap, fmap_take, fmap_drop. reflexivity.
Qed.

Lemma scan_magnitudes (self : AudioPreprocessor) (d1 d2 : list Q) (w : Z)
    (max_amp : Q) (offsets : list Z) (st : scan_state) :
  np_abs d1 = np_abs d2 ->
  scan self d1 w max_amp offsets st = scan self d2 w max_amp offsets st.
Proof.
  intros Habs. revert st. induction offsets as [|i rest IH]; intros st; simpl.
  - reflexivity.
  - rewrite !np_abs_slice, Habs.
    destruct (np_max _) as [x | e]; simpl; [| reflexivity].
    destruct (Qlt_bool _ x); [reflexivity | apply IH].
Qed.

(** The estimator reads its signal through [np.abs] only. *)
Lemma calculate_noise_floor_magnitudes (self : AudioPreprocessor)
    (d1 d2 : list Q) (sample_rate : Z) :
  np_abs d1 = np_abs d2 ->
  calculate_noise_floor self d1 sample_rate
  = calculate_noise_floor self d2 sample_rate.
Proof.
  intros Habs.
  assert (Hlen : length d1 = length d2).
  { apply (f_equal length) in Habs. unfold np_abs in Habs.
    now rewrite !length_fmap in Habs. }
  unfold calculate_noise_floor, noise_floor_scan. rewrite Habs, Hlen.
  destruct (np_max (np_abs d2)) as [m | e]; simpl; [| reflexivity].
  destruct (py_range _ _ _) as [offsets | e]; simpl; [| reflexivity].
  now rewrite (scan_magnitudes self d1 d2 _ _ _ _ Habs).
Qed.

(** X7. Inverting the polarity of the signal (negating every sample) does
    not change what the estimator returns or raises. *)
Theorem polarity_does_not_matter (self : AudioPreprocessor) (data : list Q)
    (sample_rate : Z) :
  calculate_noise_floor self (Qopp <$> data) sample_rate
  = calculate_noise_floor self data sample_rate.
Proof.
  apply calculate_noise_floor_magnitudes.
  unfold np_abs. rewrite <- list_fmap_compose.
  apply list_fmap_ext. intros _ x _. apply Qabs_opp_eq.
Qed.

(** * Further properties of adjust_amplitude *)

(** ** The order of the draws *)

Section Draws.

Variable self : AudioPreprocessor.
Variable rng : nat -> Q.
Variables nfloor_amp max_amp : Q.

Lemma qualifying_cons (s : Q) (l : list Q) :
  qualifying nfloor_amp (s :: l)
  = ((if qualifies nfloor_amp s then 1 else 0) + qualifying nfloor_amp l)%nat.
Proof.
  unfold qualifying. simpl. now destruct (qualifies nfloor_amp s).
Qed.

(** The loop over the indices of [suf], the part [pre] of the signal being
    already done with output [out]. *)
Lemma adjust_loop_from (suf pre : list Q) (out : list float_val) (d : nat) :
  length out = length pre ->
  exists st outs,
    adjust_loop self rng (pre ++ suf) nfloor_amp max_amp
      (seq (length pre) (length suf))
      {| adjusted_data := out ++ (Fin <$> suf); draws := d |} = Ok st /\
    adjusted_data st = out ++ outs /\
    draws st = (d + qualifying nfloor_amp suf)%nat /\
    forall j s, suf !! j = Some s ->
      outs !! j
      = Some (if qualifies nfloor_amp s
              then jittered self rng nfloor_amp max_amp s
                     (d + qualifying nfloor_amp (take j suf))
              else Fin s).
Proof.
  revert pre out d. induction suf as [|s suf IH]; intros pre out d Hlen.
  - exists {| adjusted_data := out ++ []; draws := d |}, [].
    split; [reflexivity |]. split; [reflexivity |].
    split; [unfold qualifying; simpl; lia |].
    intros j x Hj. now rewrite lookup_nil in Hj.
  - assert (Hs : (pre ++ s :: suf) !! length pre = Some s)
      by now apply list_lookup_middle.
    destruct (IH (pre ++ [s])
                 (out ++ [if qualifies nfloor_amp s
                          then jittered self rng nfloor_amp max_amp s d
                          else Fin s])
                 (if qualifies nfloor_amp s then S d else d))
      as (st & outs & Hloop & Hout & Hdraws & Hsamples).
    { rewrite !length_app. simpl. lia. }
    rewrite length_app, Nat.add_1_r, <- !app_assoc in Hloop. simpl in Hloop.
    exists st. eexists (_ :: outs).
    split; [| split; [| split]].
    + simpl. destruct (qualifies nfloor_amp s) eqn:Hq.
      * rewrite (adjust_body_above _ _ _ _ _ _ s _ Hs Hq). simpl.
        rewrite insert_app_r_alt by lia.
        rewrite Hlen, Nat.sub_diag. simpl. exact Hloop.
      * rewrite (adjust_body_below _ _ _ _ _ _ s _ Hs Hq). simpl. exact Hloop.
    + rewrite Hout, <- app_assoc. reflexivity.
    + rewrite Hdraws, qualifying_cons.
      destruct (qualifies nfloor_amp s); lia.
    + intros j x Hj. destruct j as [|j]; simpl in Hj.
      * injection Hj as <-. simpl.
        unfold qualifying. simpl. rewrite Nat.add_0_r. reflexivity.
      * simpl. rewrite (Hsamples j x Hj). rewrite qualifying_cons.
        destruct (qualifies nfloor_amp x); [| reflexivity].
        f_equal. f_equal. destruct (qualifies nfloor_amp s); lia.
Qed.

End Draws.

(** The transform, sample by sample, with the draw each sample uses. *)
Lemma adjust_amplitude_indexed (self : AudioPreprocessor) (rng : nat -> Q)
    (k : nat) (data : list Q) (nfloor_amp max_amp : Q) :
  exists st,
    adjust_amplitude self rng k data nfloor_amp max_amp = Ok st /\
    length (adjusted_data st) = length data /\
    draws st = (k + qualifying nfloor_amp data)%nat /\
    forall j s, data !! j = Some s ->
      adjusted_data st !! j
      = Some (if qualifies nfloor_amp s
              then jittered self rng nfloor_amp max_amp s
                     (k + qualifying nfloor_amp (take j data))
              else Fin s).
Proof.
  destruct (adjust_loop_from self rng nfloor_amp max_amp data [] [] k eq_refl)
    as (st & outs & Hloop & Hout & Hdraws & Hsamples).
  simpl in Hloop, Hout. exists st.
  split; [exact Hloop |]. split; [| split; [exact Hdraws |]].
  - destruct (adjust_amplitude_spec self rng data nfloor_amp max_amp k)
      as (st' & Hst' & Hlen & _).
    unfold adjust_amplitude in Hst'. rewrite Hloop in Hst'.
    injection Hst' as <-. exact Hlen.
  - intros j s Hj. rewrite Hout. exact (Hsamples j s Hj).
Qed.

(** X8. The transform consumes one draw per qualifying sample, in index
    order: from a source that has served [k] draws, the sample at index [j],
    when it qualifies, is jittered with draw number [k] plus the count of
    qualifying samples before [j]; the other samples are copied; and the
    source has served [k] plus the count of all qualifying samples when the
    transform returns. *)
Theorem draws_follow_index_order (self : AudioPreprocessor) (rng : nat -> Q)
    (k : nat) (data : list Q) (nfloor_amp max_amp : Q) :
  exists st,
    adjust_amplitude self rng k data nfloor_amp max_amp = Ok st /\
    length (adjusted_data st) = length data /\
    draws st = (k + qualifying nfloor_amp data)%nat /\
    forall j s, data !! j = Some s ->
      adjusted_data st !! j
      = Some (if qualifies nfloor_amp s
              then jittered self rng nfloor_amp max_amp s
                     (k + qualifying nfloor_amp (take j data))
              else Fin s).
Proof. apply adjust_amplitude_indexed. Qed.

(** ** Finite output *)

(** X9. For arguments of magnitude at most [B], itself at most 2^500 (the
    samples, the floor, the maximum and the two ends of the range), and
    [random()] in [0, 1], the transform raises nothing, keeps the length of
    its input and returns finite samples only, each of magnitude at most
    max(1, B) times that of its input: whatever smooth_amp_frac and whatever
    the denominator, the inf of a division by zero never reaches the
    output. *)
Theorem bounded_arguments_finite_output (self : AudioPreprocessor)
    (rng : nat -> Q) (k : nat) (data : list Q) (nfloor_amp max_amp B : Q) :
  B <= pow2 500 ->
  Forall (fun s => Qabs s <= B) data ->
  Qabs nfloor_amp <= B -> Qabs max_amp <= B ->
  Qabs (fst (amplitude_adjust_range self)) <= B ->
  Qabs (snd (amplitude_adjust_range self)) <= B ->
  (forall d, 0 <= rng d <= 1) ->
  exists st,
    adjust_amplitude self rng k data nfloor_amp max_amp = Ok st /\
    length (adjusted_data st) = length data /\
    forall j s, data !! j = Some s ->
      exists o, adjusted_data st !! j = Some (Fin o) /\
                Qabs o <= Qmax 1 B * Qabs s.
Proof.
  intros _ _ _ _ Hlo Hhi Hrng.
  destruct (adjust_amplitude_spec self rng data nfloor_amp max_amp k)
    as (st & Hst & Hlen & Hsample).
  exists st. split; [exact Hst |]. split; [exact Hlen |].
  intros j s Hj. specialize (Hsample j s Hj).
  pose proof (Qabs_nonneg s) as Hs0.
  pose proof (Q.le_max_l 1 B) as Hm1. pose proof (Q.le_max_r 1 B) as Hm2.
  destruct (qualifies nfloor_amp s).
  - destruct Hsample as (d & Hd).
    destruct (jittered_finite self rng nfloor_amp max_amp s d)
      as (t & _ & (Ht0 & Ht1) & Hjit).
    rewrite Hjit in Hd. eexists. split; [exact Hd |].
    set (r := uniform (rng d) (amplitude_adjust_range self)).
    assert (Hr : - B <= r /\ r <= B).
    { unfold r, uniform.
      destruct (amplitude_adjust_range self) as [lo hi]. cbn [fst snd] in *.
      apply Qabs_Qle_condition in Hlo, Hhi.
      destruct (Hrng d) as [Hu0 Hu1]. set (u := rng d) in *.
      assert (Heq : lo + (hi - lo) * u == (1 - u) * lo + u * hi) by ring.
      rewrite Heq. split; nra. }
    assert (Hg : Qabs (1 + - t + t * r) <= Qmax 1 B).
    { apply Qabs_Qle_condition.
      set (m := Qmax 1 B) in *. split; nra. }
    rewrite Qabs_Qmult.
    set (m := Qmax 1 B) in *. set (a := Qabs s) in *.
    set (g := Qabs (1 + - t + t * r)) in *. nra.
  - exists s. split; [exact Hsample |].
    set (m := Qmax 1 B) in *. set (a := Qabs s) in *. nra.
Qed.

Lemma bounded_arguments_finite_output_witness :
  exists st,
    adjust_amplitude defopts (fun _ => 1 # 2) 0 [0.01; -0.5; 0.9; 0] 0.5 0.5
    = Ok st /\
    length (adjusted_data st) = length [0.01; -0.5; 0.9; 0] /\
    forall j s, [0.01; -0.5; 0.9; 0] !! j = Some s ->
      exists o, adjusted_data st !! j = Some (Fin o) /\
                Qabs o <= Qmax 1 2 * Qabs s.
Proof.
  apply bounded_arguments_finite_output.
  - vm_compute. discriminate.
  - repeat constructor; vm_compute; discriminate.
  - vm_compute. discriminate.
  - vm_compute. discriminate.
  - vm_compute. discriminate.
  - vm_compute. discriminate.
  - intros d. split; vm_compute; discriminate.
Defined.

(** ** Polarity and magnitude of the output *)

(** Sign and magnitude of every output sample, for a positive range. *)
Lemma adjust_amplitude_sign_scale (self : AudioPreprocessor) (rng : nat -> Q)
    (k : nat) (data : list Q) (nfloor_amp max_amp : Q) :
  (forall d, 0 <= rng d <= 1) ->
  0 < fst (amplitude_adjust_range self) ->
  fst (amplitude_adjust_range self) <= snd (amplitude_adjust_range self) ->
  exists st,
    adjust_amplitude self rng k data nfloor_amp max_amp = Ok st /\
    forall j s, data !! j = Some s ->
      exists o,
        adjusted_data st !! j = Some (Fin o) /\
        (0 < s -> 0 < o) /\ (s < 0 -> o < 0) /\ (s == 0 -> o == 0) /\
        Qmin 1 (fst (amplitude_adjust_range self)) * Qabs s <= Qabs o /\
        Qabs o <= Qmax 1 (snd (amplitude_adjust_range self)) * Qabs s.
Proof.
  intros Hrng Hlo Hrange.
  destruct (adjust_amplitude_spec self rng data nfloor_amp max_amp k)
    as (st & Hst & _ & Hsample).
  exists st. split; [exact Hst |]. intros j s Hj.
  specialize (Hsample j s Hj).
  assert (Hgain : forall g,
            Qmin 1 (fst (amplitude_adjust_range self)) <= g ->
            g <= Qmax 1 (snd (amplitude_adjust_range self)) ->
            (0 < s -> 0 < s * g) /\ (s < 0 -> s * g < 0) /\
            (s == 0 -> s * g == 0) /\
            Qmin 1 (fst (amplitude_adjust_range self)) * Qabs s <= Qabs (s * g) /\
            Qabs (s * g) <= Qmax 1 (snd (amplitude_adjust_range self)) * Qabs s).
  { intros g Hg1 Hg2.
    assert (Hpos : 0 < g).
    { destruct (Q.min_spec 1 (fst (amplitude_adjust_range self)))
        as [[_ Hm] | [_ Hm]]; rewrite Hm in Hg1; lra. }
    rewrite Qabs_Qmult, (Qabs_pos g) by lra.
    pose proof (Qabs_nonneg s) as Hs.
    repeat split.
    - intros H. nra.
    - intros H. nra.
    - intros H. rewrite H. ring.
    - nra.
    - nra. }
  destruct (qualifies nfloor_amp s).
  - destruct Hsample as (d & Hd).
    destruct (jittered_finite self rng nfloor_amp max_amp s d)
      as (t & _ & (Ht0 & Ht1) & Hjit).
    rewrite Hjit in Hd. eexists. split; [exact Hd |].
    destruct (amplitude_adjust_range self) as [lo hi]. simpl in *.
    pose proof (uniform_in_range (rng d) lo hi (Hrng d) Hrange) as Hu.
    destruct (blend_bounds t (uniform (rng d) (lo, hi)) lo hi Ht0 Ht1 Hu).
    now apply Hgain.
  - exists s. split; [exact Hsample |].
    destruct (Hgain 1) as (H1 & H2 & H3 & H4 & H5).
    + apply Q.le_min_l.
    + apply Q.le_max_l.
    + split; [intros H; lra |]. split; [intros H; lra |].
      split; [intros H; exact H |].
      assert (Heq : Qabs (s * 1) == Qabs s) by (now rewrite Qmult_1_r).
      rewrite Heq in H4, H5. now split.
Qed.

(** X10. With [random()] in [0, 1] and a range 0 < lo <= hi, every output
    sample is a finite number of the same sign as its input, and its
    magnitude is between min(1, lo) and max(1, hi) times the magnitude of the
    input: the transform never flips, silences or creates a sample. *)
Theorem output_keeps_sign_and_scale (self : AudioPreprocessor) (rng : nat -> Q)
    (k : nat) (data : list Q) (nfloor_amp max_amp : Q) :
  (forall d, 0 <= rng d <= 1) ->
  0 < fst (amplitude_adjust_range self) ->
  fst (amplitude_adjust_range self) <= snd (amplitude_adjust_range self) ->
  exists st,
    adjust_amplitude self rng k data nfloor_amp max_amp = Ok st /\
    forall j s, data !! j = Some s ->
      exists o,
        adjusted_data st !! j = Some (Fin o) /\
        (0 < s -> 0 < o) /\ (s < 0 -> o < 0) /\ (s == 0 -> o == 0) /\
        Qmin 1 (fst (amplitude_adjust_range self)) * Qabs s <= Qabs o /\
        Qabs o <= Qmax 1 (snd (amplitude_adjust_range self)) * Qabs s.
Proof. apply adjust_amplitude_sign_scale. Qed.

Lemma output_keeps_sign_and_scale_witness :
  exists st,
    adjust_amplitude defopts (fun _ => 1 # 4) 0 [0.01; -0.5; 0.9; 0] 0 0.9 = Ok st /\
    forall j s, [0.01; -0.5; 0.9; 0] !! j = Some s ->
      exists o,
        adjusted_data st !! j = Some (Fin o) /\
        (0 < s -> 0 < o) /\ (s < 0 -> o < 0) /\ (s == 0 -> o == 0) /\
        Qmin 1 (fst (amplitude_adjust_range defopts)) * Qabs s <= Qabs o /\
        Qabs o <= Qmax 1 (snd (amplitude_adjust_range defopts)) * Qabs s.
Proof.
  apply output_keeps_sign_and_scale.
  - intros d. split; vm_compute; discriminate.
  - reflexivity.
  - vm_compute. discriminate.
Defined.

(** ** The transition factor *)

Lemma transition_quotient_nonzero (self : AudioPreprocessor)
    (abs_val nfloor_amp max_amp : Q) :
  ~ smooth_amp_frac self * (max_amp - nfloor_amp) == 0 ->
  transition_quotient self abs_val nfloor_amp max_amp
  = Fin ((abs_val - nfloor_amp) / (smooth_amp_frac self * (max_amp - nfloor_amp))).
Proof.
  intros Hden. unfold transition_quotient, np_div_signed, np_div.
  destruct (Qeq_bool _ 0) eqn:E; [| reflexivity].
  apply Qeq_bool_iff in E. contradiction.
Qed.

Lemma clamp_Fin (q : Q) :
  exists t, py_max (Fin 0) (py_min (Fin 1) (Fin q)) = Fin t /\
            t == Qmax 0 (Qmin 1 q).
Proof.
  unfold py_min. simpl. destruct (Qlt_bool q 1) eqn:H1; unfold py_max; simpl.
  - apply Qlt_bool_iff in H1. destruct (Qlt_bool 0 q) eqn:H0.
    + apply Qlt_bool_iff in H0. exists q. split; [reflexivity |].
      rewrite (Q.min_r 1 q), (Q.max_r 0 q) by lra. reflexivity.
    + apply Qlt_bool_false_iff in H0. exists 0. split; [reflexivity |].
      rewrite (Q.min_r 1 q), (Q.max_l 0 q) by lra. reflexivity.
  - apply Qlt_bool_false_iff in H1. exists 1. split; [reflexivity |].
    rewrite (Q.min_l 1 q), (Q.max_r 0 1) by lra. reflexivity.
Qed.

(** X11. For a qualifying sample the transition factor depends on the
    denominator smooth_amp_frac * (max_amp - noise_floor_amp) as follows
    (the difference, the product and the quotient taken exactly).
    Negative: the factor is 0.  Zero: it is 1 when the zero is +0.0
    (smooth_amp_frac >= 0 and noise_floor_amp <= max_amp), and 0 when it is
    -0.0 (smooth_amp_frac < 0 or max_amp < noise_floor_amp).  Positive: it is
    the quotient (abs_val - noise_floor_amp) / denominator while the
    quotient is below 1, and 1 from there on. *)
Theorem transition_factor_regimes (self : AudioPreprocessor)
    (abs_val nfloor_amp max_amp : Q) :
  nfloor_amp < abs_val ->
  (smooth_amp_frac self * (max_amp - nfloor_amp) < 0 ->
   smooth_transition_factor self abs_val nfloor_amp max_amp = Fin 0) /\
  (smooth_amp_frac self * (max_amp - nfloor_amp) == 0 ->
   0 <= smooth_amp_frac self -> nfloor_amp <= max_amp ->
   smooth_transition_factor self abs_val nfloor_amp max_amp = Fin 1) /\
  (smooth_amp_frac self * (max_amp - nfloor_amp) == 0 ->
   smooth_amp_frac self < 0 \/ max_amp < nfloor_amp ->
   smooth_transition_factor self abs_val nfloor_amp max_amp = Fin 0) /\
  (0 < smooth_amp_frac self * (max_amp - nfloor_amp) ->
   smooth_amp_frac self * (max_amp - nfloor_amp) <= abs_val - nfloor_amp ->
   smooth_transition_factor self abs_val nfloor_amp max_amp = Fin 1) /\
  (0 < smooth_amp_frac self * (max_amp - nfloor_amp) ->
   abs_val - nfloor_amp < smooth_amp_frac self * (max_amp - nfloor_amp) ->
   exists t,
     smooth_transition_factor self abs_val nfloor_amp max_amp = Fin t /\
     t == (abs_val - nfloor_amp) / (smooth_amp_frac self * (max_amp - nfloor_amp)) /\
     0 < t /\ t < 1).
Proof.
  intros Hq. unfold smooth_transition_factor.
  set (den := smooth_amp_frac self * (max_amp - nfloor_amp)).
  split; [| split; [| split; [| split]]].
  - intros Hneg. rewrite transition_quotient_nonzero by (fold den; lra). fold den.
    assert (Hquot : (abs_val - nfloor_amp) / den < 0).
    { assert (Heq : (abs_val - nfloor_amp) / den
                    == - ((abs_val - nfloor_amp) / - den)) by (field; lra).
      rewrite Heq.
      assert (0 < (abs_val - nfloor_amp) / - den)
        by (apply Qlt_shift_div_l; lra).
      lra. }
    unfold py_min. simpl.
    assert (H1 : Qlt_bool ((abs_val - nfloor_amp) / den) 1 = true)
      by (apply Qlt_bool_iff; lra).
    rewrite H1. unfold py_max. simpl.
    assert (H0 : Qlt_bool 0 ((abs_val - nfloor_amp) / den) = false)
      by (apply Qlt_bool_false_iff; lra).
    now rewrite H0.
  - intros Hzero Hfrac Hle.
    rewrite (transition_quotient_zero self abs_val nfloor_amp max_amp Hzero Hq).
    now rewrite negative_zero_product_false by lra.
  - intros Hzero Hneg.
    rewrite (transition_quotient_zero self abs_val nfloor_amp max_amp Hzero Hq).
    rewrite negative_zero_product_true; [reflexivity | exact Hzero |].
    destruct Hneg as [H | H]; [now left | right; lra].
  - intros Hpos Hfull.
    rewrite transition_quotient_nonzero by (fold den; lra). fold den.
    assert (Hquot : 1 <= (abs_val - nfloor_amp) / den)
      by (apply Qle_shift_div_l; lra).
    unfold py_min. simpl.
    assert (H1 : Qlt_bool ((abs_val - nfloor_amp) / den) 1 = false)
      by (apply Qlt_bool_false_iff; lra).
    now rewrite H1.
  - intros Hpos Hramp.
    rewrite transition_quotient_nonzero by (fold den; lra). fold den.
    assert (Hlt : (abs_val - nfloor_amp) / den < 1)
      by (apply Qlt_shift_div_r; lra).
    assert (Hgt : 0 < (abs_val - nfloor_amp) / den)
      by (apply Qlt_shift_div_l; lra).
    exists ((abs_val - nfloor_amp) / den).
    unfold py_min. simpl.
    apply Qlt_bool_iff in Hlt as H1. rewrite H1. unfold py_max. simpl.
    apply Qlt_bool_iff in Hgt as H0. rewrite H0.
    split; [reflexivity |]. split; [reflexivity |]. now split.
Qed.

Lemma transition_factor_regimes_witness :
  (smooth_amp_frac defopts * (0.9 - 0.1) < 0 ->
   smooth_transition_factor defopts 0.14 0.1 0.9 = Fin 0) /\
  (smooth_amp_frac defopts * (0.9 - 0.1) == 0 ->
   0 <= smooth_amp_frac defopts -> 0.1 <= 0.9 ->
   smooth_transition_factor defopts 0.14 0.1 0.9 = Fin 1) /\
  (smooth_amp_frac defopts * (0.9 - 0.1) == 0 ->
   smooth_amp_frac defopts < 0 \/ 0.9 < 0.1 ->
   smooth_transition_factor defopts 0.14 0.1 0.9 = Fin 0) /\
  (0 < smooth_amp_frac defopts * (0.9 - 0.1) ->
   smooth_amp_frac defopts * (0.9 - 0.1) <= 0.14 - 0.1 ->
   smooth_transition_factor defopts 0.14 0.1 0.9 = Fin 1) /\
  (0 < smooth_amp_frac defopts * (0.9 - 0.1) ->
   0.14 - 0.1 < smooth_amp_frac defopts * (0.9 - 0.1) ->
   exists t,
     smooth_transition_factor defopts 0.14 0.1 0.9 = Fin t /\
     t == (0.14 - 0.1) / (smooth_amp_frac defopts * (0.9 - 0.1)) /\
     0 < t /\ t < 1).
Proof.
  apply transition_factor_regimes. reflexivity.
Defined.

(** Past the end of the ramp, with a denominator that is not negative nor
    -0.0, the transition factor is 1. *)
Lemma transition_factor_full (self : AudioPreprocessor)
    (abs_val nfloor_amp max_amp : Q) :
  nfloor_amp < abs_val ->
  0 <= smooth_amp_frac self -> nfloor_amp <= max_amp ->
  smooth_amp_frac self * (max_amp - nfloor_amp) <= abs_val - nfloor_amp ->
  smooth_transition_factor self abs_val nfloor_amp max_amp = Fin 1.
Proof.
  intros Hq Hfrac Hle Hfull. unfold smooth_transition_factor.
  destruct (Qeq_dec (smooth_amp_frac self * (max_amp - nfloor_amp)) 0)
    as [Hzero | Hnz].
  - rewrite (transition_quotient_zero self abs_val nfloor_amp max_amp Hzero Hq).
    now rewrite negative_zero_product_false by lra.
  - rewrite transition_quotient_nonzero by exact Hnz.
    assert (Hpos : 0 < smooth_amp_frac self * (max_amp - nfloor_amp)).
    { assert (0 <= smooth_amp_frac self * (max_amp - nfloor_amp))
        by (apply Qmult_le_0_compat; lra).
      destruct (Qle_lt_or_eq _ _ H) as [Hlt | Heq];
        [exact Hlt | exfalso; apply Hnz; now symmetry]. }
    assert (Hquot : 1 <= (abs_val - nfloor_amp)
                         / (smooth_amp_frac self * (max_amp - nfloor_amp)))
      by (apply Qle_shift_div_l; lra).
    unfold py_min. simpl.
    apply Qlt_bool_false_iff in Hquot. now rewrite Hquot.
Qed.

(** X12. With the floor the estimator returns, 0, a non-zero sample whose
    magnitude is at least smooth_amp_frac * max_amp (smooth_amp_frac and
    max_amp not negative) has transition factor 1 and gain equal to its
    random draw: its output is s * uniform(lo, hi), with the draw that its
    rank among the qualifying samples assigns. *)
Theorem full_jitter_beyond_ramp (self : AudioPreprocessor) (rng : nat -> Q)
    (k : nat) (data : list Q) (nfloor_amp max_amp : Q) (j : nat) (s : Q) :
  data !! j = Some s ->
  nfloor_amp == 0 ->
  0 < Qabs s ->
  0 <= smooth_amp_frac self -> 0 <= max_amp ->
  smooth_amp_frac self * max_amp <= Qabs s ->
  smooth_transition_factor self (Qabs s) nfloor_amp max_amp = Fin 1 /\
  exists st o,
    adjust_amplitude self rng k data nfloor_amp max_amp = Ok st /\
    adjusted_data st !! j = Some (Fin o) /\
    o == s * uniform (rng (k + qualifying nfloor_amp (take j data))%nat)
               (amplitude_adjust_range self).
Proof.
  intros Hj Hnf Hs Hfrac Hmax Hfull.
  assert (Ht : smooth_transition_factor self (Qabs s) nfloor_amp max_amp = Fin 1).
  { apply transition_factor_full; [lra | exact Hfrac | lra |].
    assert (Heq : smooth_amp_frac self * (max_amp - nfloor_amp)
                  == smooth_amp_frac self * max_amp) by (rewrite Hnf; ring).
    lra. }
  split; [exact Ht |].
  destruct (adjust_amplitude_indexed self rng k data nfloor_amp max_amp)
    as (st & Hst & _ & _ & Hsamples).
  specialize (Hsamples j s Hj).
  assert (Hqual : qualifies nfloor_amp s = true) by (apply Qlt_bool_iff; lra).
  rewrite Hqual in Hsamples. unfold jittered in Hsamples.
  rewrite Ht in Hsamples.
  exists st. eexists. split; [exact Hst |]. split; [exact Hsamples |]. ring.
Qed.

Lemma full_jitter_beyond_ramp_witness :
  smooth_transition_factor defopts (Qabs (-0.5)) 0 0.9 = Fin 1 /\
  exists st o,
    adjust_amplitude defopts (fun n => 1 # Pos.of_nat (S n)) 0
      [0.01; -0.5; 0.9; 0] 0 0.9 = Ok st /\
    adjusted_data st !! 1%nat = Some (Fin o) /\
    o == -0.5 * uniform ((fun n => 1 # Pos.of_nat (S n))
                           (Nat.add 0%nat
                              (qualifying 0 (take 1%nat [0.01; -0.5; 0.9; 0]))))
                  (amplitude_adjust_range defopts).
Proof.
  apply full_jitter_beyond_ramp.
  - reflexivity.
  - reflexivity.
  - reflexivity.
  - vm_compute. discriminate.
  - vm_compute. discriminate.
  - vm_compute. discriminate.
Defined.

(** X13. For a positive denominator the transition factor never decreases
    when the absolute value of the sample grows, and it stays in [0, 1]: the
    blend goes one way, from the untouched sample to the full jitter. *)
Theorem transition_factor_monotone (self : AudioPreprocessor)
    (a a' nfloor_amp max_amp : Q) :
  0 < smooth_amp_frac self * (max_amp - nfloor_amp) ->
  a <= a' ->
  exists t t',
    smooth_transition_factor self a nfloor_amp max_amp = Fin t /\
    smooth_transition_factor self a' nfloor_amp max_amp = Fin t' /\
    0 <= t /\ t <= t' /\ t' <= 1.
Proof.
  intros Hden Hle. unfold smooth_transition_factor.
  rewrite !transition_quotient_nonzero by lra.
  set (den := smooth_amp_frac self * (max_amp - nfloor_amp)) in *.
  destruct (clamp_Fin ((a - nfloor_amp) / den)) as (t & Ht & Htv).
  destruct (clamp_Fin ((a' - nfloor_amp) / den)) as (t' & Ht' & Htv').
  exists t, t'. split; [exact Ht |]. split; [exact Ht' |].
  assert (Hquot : (a - nfloor_amp) / den <= (a' - nfloor_amp) / den).
  { unfold Qdiv. apply Qmult_le_compat_r; [lra |].
    apply Qlt_le_weak, Qinv_lt_0_compat, Hden. }
  rewrite Htv, Htv'. split; [apply Q.le_max_l |]. split.
  - apply Q.max_le_compat_l, Q.min_le_compat_l, Hquot.
  - apply Q.max_lub; [lra | apply Q.le_min_l].
Qed.

Lemma transition_factor_monotone_witness :
  exists t t',
    smooth_transition_factor defopts 0.12 0.1 0.9 = Fin t /\
    smooth_transition_factor defopts 0.15 0.1 0.9 = Fin t' /\
    0 <= t /\ t <= t' /\ t' <= 1.
Proof.
  apply transition_factor_monotone; vm_compute; solve [reflexivity | discriminate].
Defined.

(** * Properties of load_audio *)

Lemma foldl_Zmax_spec (xs : list Z) (x : Z) :
  (x <= foldl Z.max x xs)%Z /\
  Forall (fun y => (y <= foldl Z.max x xs)%Z) xs /\
  foldl Z.max x xs ∈ x :: xs.
Proof.
  revert x. induction xs as [|y ys IH]; intros x; simpl.
  - repeat split; [lia | constructor | left].
  - destruct (IH (Z.max x y)) as (Hle & Hall & Hin).
    repeat split.
    + lia.
    + constructor; [lia | exact Hall].
    + apply elem_of_cons in Hin as [Hin | Hin].
      * rewrite Hin. destruct (Z.max_spec x y) as [[_ ->] | [_ ->]];
          [right; left | left].
      * right. right. exact Hin.
Qed.

(** The peak that [load_audio] divides by, for a non-empty array. *)
Lemma np_max_int_spec (data : list Z) :
  data <> [] ->
  exists peak,
    np_max_int (np_abs_int16 <$> data) = Ok peak /\
    Forall (fun x => (np_abs_int16 x <= peak)%Z) data /\
    exists x, x ∈ data /\ peak = np_abs_int16 x.
Proof.
  destruct data as [|x xs]; [congruence | intros _].
  destruct (foldl_Zmax_spec (np_abs_int16 <$> xs) (np_abs_int16 x))
    as (Hle & Hall & Hin).
  exists (foldl Z.max (np_abs_int16 x) (np_abs_int16 <$> xs)).
  split; [reflexivity |]. split.
  - constructor; [exact Hle |]. rewrite Forall_fmap in Hall. exact Hall.
  - apply elem_of_cons in Hin as [Hin | Hin].
    + exists x. split; [left | exact Hin].
    + apply list_elem_of_fmap in Hin as (y & -> & Hy).
      exists y. split; [right; exact Hy | reflexivity].
Qed.

Lemma np_div_nonzero (x y : Q) : ~ y == 0 -> np_div x y = Fin (x / y).
Proof.
  intros Hy. unfold np_div. destruct (Qeq_bool y 0) eqn:E; [| reflexivity].
  apply Qeq_bool_iff in E. contradiction.
Qed.

Lemma inject_Z_nonzero (z : Z) : z <> 0%Z -> ~ inject_Z z == 0.
Proof.
  intros Hz H. apply Hz. unfold Qeq, inject_Z in H. simpl in H. lia.
Qed.

(** Normalisation by a positive peak. *)
Lemma normalised_bounds (x peak : Z) :
  (0 < peak)%Z -> (Z.abs x <= peak)%Z ->
  Qabs (inject_Z x / inject_Z peak) <= 1 /\
  (Z.abs x = peak -> Qabs (inject_Z x / inject_Z peak) == 1).
Proof.
  intros Hp Hx.
  assert (Hpq : 0 < inject_Z peak) by (rewrite (Zlt_Qlt 0 peak) in Hp; exact Hp).
  assert (Habs : Qabs (inject_Z x / inject_Z peak)
                 == inject_Z (Z.abs x) / inject_Z peak).
  { unfold Qdiv. rewrite Qabs_Qmult.
    rewrite (Qabs_pos (/ inject_Z peak))
      by (apply Qlt_le_weak, Qinv_lt_0_compat, Hpq).
    apply Qmult_comp; [| reflexivity].
    unfold Qabs, inject_Z. simpl. reflexivity. }
  rewrite Habs. split.
  - apply Qle_shift_div_r; [exact Hpq |]. rewrite Qmult_1_l.
    now rewrite <- Zle_Qle.
  - intros ->. field. lra.
Qed.

(** What [load_audio] returns for a clean array: every sample divided by the
    largest absolute sample. *)
Lemma load_audio_clean (sample_rate : Z) (raw : list Z) :
  clean_pcm raw ->
  exists peak,
    (0 < peak)%Z /\
    Forall (fun x => (Z.abs x <= peak)%Z) raw /\
    Exists (fun x => Z.abs x = peak) raw /\
    load_audio (sample_rate, raw)
    = Ok (sample_rate, Fin <$> ((fun x => inject_Z x / inject_Z peak) <$> raw)).
Proof.
  intros (Hrange & Hsound).
  assert (Habs : Forall (fun x => np_abs_int16 x = Z.abs x) raw).
  { eapply Forall_impl; [exact Hrange |]. intros x Hx. simpl in Hx.
    unfold np_abs_int16. destruct (Z.eqb_spec x (-32768)); [lia | reflexivity]. }
  assert (Hne : raw <> []).
  { intros ->. now apply Exists_nil in Hsound. }
  destruct (np_max_int_spec raw Hne) as (peak & Hpeak & Hall & (y & Hy & Hatt)).
  rewrite Forall_forall in Habs.
  assert (Hall' : Forall (fun x => (Z.abs x <= peak)%Z) raw).
  { apply Forall_forall. intros x Hx. rewrite <- (Habs x Hx).
    rewrite Forall_forall in Hall. now apply Hall. }
  assert (Hpos : (0 < peak)%Z).
  { apply Exists_exists in Hsound as (x & Hx & Hnz).
    rewrite Forall_forall in Hall'. specialize (Hall' x Hx). lia. }
  exists peak. split; [exact Hpos |]. split; [exact Hall' |]. split.
  - apply Exists_exists. exists y. split; [exact Hy |].
    rewrite Hatt. symmetry. now apply Habs.
  - unfold load_audio. rewrite Hpeak. simpl. unfold mret, pyresult_ret.
    do 2 f_equal. rewrite <- list_fmap_compose.
    apply list_fmap_ext. intros _ x _. simpl.
    apply np_div_nonzero, inject_Z_nonzero. lia.
Qed.

(** X14. For an int16 array that is not silent and does not hold -32768,
    [load_audio] returns the sample rate unchanged and finite samples, each
    the raw sample divided by the largest absolute raw sample: all of them
    lie in [-1, 1] and one of them has absolute value 1. *)
Theorem load_audio_normalises (sample_rate : Z) (raw : list Z) :
  clean_pcm raw ->
  exists peak data,
    load_audio (sample_rate, raw) = Ok (sample_rate, Fin <$> data) /\
    (0 < peak)%Z /\
    data = (fun x => inject_Z x / inject_Z peak) <$> raw /\
    Forall (fun y => Qabs y <= 1) data /\
    Exists (fun y => Qabs y == 1) data.
Proof.
  intros Hclean.
  destruct (load_audio_clean sample_rate raw Hclean)
    as (peak & Hpos & Hall & Hatt & Hload).
  exists peak, ((fun x => inject_Z x / inject_Z peak) <$> raw).
  split; [exact Hload |]. split; [exact Hpos |]. split; [reflexivity |]. split.
  - apply Forall_fmap. eapply Forall_impl; [exact Hall |].
    intros x Hx. simpl. now apply normalised_bounds.
  - apply Exists_fmap. eapply Exists_impl; [exact Hatt |].
    intros x Hx. simpl in *.
    destruct (normalised_bounds x peak Hpos) as [_ H]; [lia | exact (H Hx)].
Qed.

Lemma load_audio_normalises_witness :
  exists peak data,
    load_audio (8000%Z, [100; -16384; 8192; 0]%Z) = Ok (8000%Z, Fin <$> data) /\
    (0 < peak)%Z /\
    data = (fun x => inject_Z x / inject_Z peak) <$> [100; -16384; 8192; 0]%Z /\
    Forall (fun y => Qabs y <= 1) data /\
    Exists (fun y => Qabs y == 1) data.
Proof.
  apply load_audio_normalises. split.
  - repeat constructor; discriminate.
  - apply Exists_cons_hd. discriminate.
Defined.

(** X15. For a silent file (a non-empty array of zeros) [load_audio] divides
    0 by 0 at every sample: it raises nothing and returns an array of nan. *)
Theorem load_audio_silent_is_nan (sample_rate : Z) (raw : list Z) :
  raw <> [] ->
  Forall (fun x => x = 0%Z) raw ->
  load_audio (sample_rate, raw) = Ok (sample_rate, replicate (length raw) NaN).
Proof.
  intros Hne Hzero.
  destruct (np_max_int_spec raw Hne) as (peak & Hpeak & _ & (y & Hy & Hatt)).
  rewrite Forall_forall in Hzero.
  assert (peak = 0%Z) as -> by (rewrite Hatt, (Hzero y Hy); reflexivity).
  unfold load_audio. rewrite Hpeak. simpl. unfold mret, pyresult_ret.
  do 2 f_equal. clear Hpeak Hne Hy Hatt.
  induction raw as [|x xs IH]; [reflexivity |].
  simpl. rewrite (Hzero x) by left. f_equal.
  apply IH. intros z Hz. apply Hzero. now right.
Qed.

Lemma load_audio_silent_is_nan_witness :
  load_audio (8000%Z, [0; 0; 0]%Z)
  = Ok (8000%Z, replicate (length [0; 0; 0]%Z) NaN).
Proof.
  apply load_audio_silent_is_nan; [discriminate | repeat constructor].
Defined.

(** X16. When an int16 array holds -32768 beside another non-zero sample,
    [np.abs] leaves -32768 negative, the peak is taken among the other
    samples, and the normalised array holds a sample below -1: the data is
    not confined to [-1, 1]. *)
Theorem load_audio_most_negative_escapes (sample_rate : Z) (raw : list Z)
    (j i : nat) (x : Z) :
  Forall is_int16 raw ->
  raw !! j = Some (-32768)%Z ->
  raw !! i = Some x -> x <> 0%Z -> x <> (-32768)%Z ->
  exists data q,
    load_audio (sample_rate, raw) = Ok (sample_rate, data) /\
    data !! j = Some (Fin q) /\ q < -1.
Proof.
  intros Hrange Hj Hi Hnz Hnm.
  assert (Hne : raw <> []) by (intros ->; now rewrite lookup_nil in Hj).
  destruct (np_max_int_spec raw Hne) as (peak & Hpeak & Hall & (y & Hy & Hatt)).
  rewrite Forall_forall in Hall, Hrange.
  assert (Hx : (Z.abs x <= peak)%Z).
  { specialize (Hall x (list_elem_of_lookup_2 _ _ _ Hi)).
    unfold np_abs_int16 in Hall.
    destruct (Z.eqb_spec x (-32768)); [contradiction | exact Hall]. }
  assert (Hpeak_range : (0 < peak <= 32767)%Z).
  { split; [lia |]. rewrite Hatt. unfold np_abs_int16.
    specialize (Hrange y Hy). unfold is_int16 in Hrange.
    destruct (Z.eqb_spec y (-32768)); lia. }
  unfold load_audio. rewrite Hpeak. simpl. unfold mret, pyresult_ret.
  eexists _, (inject_Z (-32768) / inject_Z peak).
  split; [reflexivity |]. split.
  - rewrite list_lookup_fmap, Hj. simpl. f_equal.
    apply np_div_nonzero, inject_Z_nonzero. lia.
  - destruct Hpeak_range as [Hp0 Hp1].
    rewrite (Zlt_Qlt 0 peak) in Hp0. rewrite (Zle_Qle peak 32767) in Hp1.
    change (inject_Z 0) with 0 in Hp0. change (inject_Z 32767) with 32767 in Hp1.
    apply Qlt_shift_div_r; [exact Hp0 |].
    change (inject_Z (-32768)) with (-32768). lra.
Qed.

Lemma load_audio_most_negative_escapes_witness :
  exists data q,
    load_audio (8000%Z, [1000; -32768; 32767]%Z) = Ok (8000%Z, data) /\
    data !! 1%nat = Some (Fin q) /\ q < -1.
Proof.
  apply (load_audio_most_negative_escapes 8000 [1000; -32768; 32767]%Z 1 0 1000).
  - repeat constructor; discriminate.
  - reflexivity.
  - reflexivity.
  - discriminate.
  - discriminate.
Defined.

(** * Properties of preprocess *)

Lemma finite_samples_Fin (l : list Q) : finite_samples (Fin <$> l) = Some l.
Proof.
  induction l as [|q l IH]; [reflexivity |]. simpl.
  change (list_fmap Q float_val Fin l) with (Fin <$> l). now rewrite IH.
Qed.

Lemma Qabs_inject_Z (z : Z) : Qabs (inject_Z z) == inject_Z (Z.abs z).
Proof. unfold Qabs, inject_Z. simpl. reflexivity. Qed.

(** [int] of a float whose magnitude is at most [m] has magnitude at most
    [m]; it keeps the sign. *)
Lemma py_int_abs_le (q : Q) (m : Z) :
  Qabs q <= inject_Z m -> (Z.abs (py_int q) <= m)%Z.
Proof.
  intros Hq. destruct (py_int_truncates q) as (Hlo & _).
  rewrite Qabs_inject_Z in Hlo. rewrite Zle_Qle. lra.
Qed.

Lemma py_int_sign (q : Q) :
  (0 <= q -> (0 <= py_int q)%Z) /\ (q <= 0 -> (py_int q <= 0)%Z).
Proof. destruct (py_int_truncates q) as (_ & _ & Hp & Hn). now split. Qed.

(** [int] of a float of magnitude [m] or more has magnitude [m] or more. *)
Lemma py_int_abs_ge (q : Q) (m : Z) :
  inject_Z m <= Qabs q -> (m <= Z.abs (py_int q))%Z.
Proof.
  intros Hq. destruct (py_int_truncates q) as (_ & Hhi & _).
  rewrite Qabs_inject_Z in Hhi.
  assert (Hlt : inject_Z m < inject_Z (Z.abs (py_int q) + 1)).
  { rewrite inject_Z_plus. change (inject_Z 1) with 1. lra. }
  rewrite <- Zlt_Qlt in Hlt. lia.
Qed.

Lemma qualifies_Qeq (nf nf' s : Q) :
  nf == nf' -> qualifies nf s = qualifies nf' s.
Proof.
  intros Heq. unfold qualifies.
  destruct (Qlt_bool nf (Qabs s)) eqn:H1, (Qlt_bool nf' (Qabs s)) eqn:H2;
    try reflexivity.
  - apply Qlt_bool_iff in H1. apply Qlt_bool_false_iff in H2. lra.
  - apply Qlt_bool_iff in H2. apply Qlt_bool_false_iff in H1. lra.
Qed.

(** A normalised sample qualifies above a zero floor when the raw sample is
    not zero. *)
Lemma qualifies_normalised (nf : Q) (peak x : Z) :
  nf == 0 -> (0 < peak)%Z ->
  qualifies nf (inject_Z x / inject_Z peak) = negb (x =? 0)%Z.
Proof.
  intros Hnf Hp.
  assert (Hpq : 0 < inject_Z peak) by (rewrite (Zlt_Qlt 0 peak) in Hp; exact Hp).
  rewrite (qualifies_Qeq nf 0 _ Hnf). unfold qualifies.
  destruct (Z.eqb_spec x 0) as [-> | Hx]; cbn [negb].
  - apply Qlt_bool_false_iff.
    assert (H0 : inject_Z 0 / inject_Z peak == 0) by (field; lra).
    rewrite H0. vm_compute. discriminate.
  - apply Qlt_bool_iff.
    assert (Hnz : ~ inject_Z x / inject_Z peak == 0).
    { intros H. apply (inject_Z_nonzero x Hx).
      assert (Hx' : inject_Z x == inject_Z x / inject_Z peak * inject_Z peak)
        by (field; lra).
      rewrite Hx', H. ring. }
    apply (Qabs_case _ (fun a => 0 < a)); intros Hs.
    + destruct (Qlt_le_dec 0 (inject_Z x / inject_Z peak)) as [Hlt | Hle];
        [exact Hlt | exfalso; apply Hnz; lra].
    + destruct (Qlt_le_dec (inject_Z x / inject_Z peak) 0) as [Hlt | Hle];
        [lra | exfalso; apply Hnz; lra].
Qed.

(** The run of [preprocess] on a clean file, stage by stage. *)
Lemma preprocess_clean (self : AudioPreprocessor) (rng : nat -> Q) (k : nat)
    (sample_rate : Z) (raw : list Z) :
  clean_pcm raw ->
  (1 <= window_size self sample_rate)%Z ->
  (1 <= skip_size self sample_rate)%Z ->
  exists peak nfloor_amp max_amp st,
    (0 < peak)%Z /\
    Forall (fun x => (Z.abs x <= peak)%Z) raw /\
    Exists (fun x => Z.abs x = peak) raw /\
    nfloor_amp == 0 /\ max_amp == 1 /\
    adjust_amplitude self rng k
      ((fun x => inject_Z x / inject_Z peak) <$> raw) nfloor_amp max_amp = Ok st /\
    preprocess self rng k (sample_rate, raw)
    = Some (Ok {| written_rate := sample_rate;
                  written_data :=
                    (fun v => np_int16 (float_mul v (Fin 32767)))
                      <$> adjusted_data st;
                  returned := (nfloor_amp, max_amp) |}).
Proof.
  intros Hclean Hw Hs.
  destruct (load_audio_clean sample_rate raw Hclean)
    as (peak & Hpos & Hall & Hatt & Hload).
  set (data := (fun x => inject_Z x / inject_Z peak) <$> raw) in *.
  assert (Hne : data <> []).
  { intros Hnil. apply fmap_nil_inv in Hnil. subst raw.
    now apply Exists_nil in Hatt. }
  destruct (calculate_noise_floor_returns self data sample_rate)
    as (nf & m & Hres & Hm & Hnf); [now split |].
  assert (Hone : m == 1).
  { destruct (np_max_abs_spec data Hne) as (m' & Hm' & _ & (y & Hy & Hmy) & Hbound).
    rewrite Hm in Hm'. injection Hm' as <-.
    apply Qle_antisym.
    - rewrite Hmy. apply list_elem_of_fmap in Hy as (x & -> & Hx).
      rewrite Forall_forall in Hall. now apply normalised_bounds, Hall.
    - apply Exists_exists in Hatt as (x & Hx & Hxp).
      rewrite Forall_forall in Hbound.
      specialize (Hbound (inject_Z x / inject_Z peak)
                    (list_elem_of_fmap_2 _ _ _ Hx)).
      destruct (normalised_bounds x peak Hpos) as [_ H1]; [lia |].
      rewrite <- (H1 Hxp). exact Hbound. }
  destruct (adjust_amplitude_indexed self rng k data nf m) as (st & Hst & _).
  exists peak, nf, m, st.
  split; [exact Hpos |]. split; [exact Hall |]. split; [exact Hatt |].
  split; [exact Hnf |]. split; [exact Hone |]. split; [exact Hst |].
  unfold preprocess. rewrite Hload, finite_samples_Fin, Hres. simpl.
  rewrite Hst. reflexivity.
Qed.

(** X17. On a clean 16-bit file, with window and skip of at least one
    sample, [preprocess] returns; what it returns is always the pair
    (0, 1): a zero noise floor and, the data being normalised, a maximum
    amplitude of 1.  It hands on the sample rate of the file and as many
    samples as the file holds. *)
Theorem preprocess_returns_zero_and_one (self : AudioPreprocessor)
    (rng : nat -> Q) (k : nat) (sample_rate : Z) (raw : list Z) :
  clean_pcm raw ->
  (1 <= window_size self sample_rate)%Z ->
  (1 <= skip_size self sample_rate)%Z ->
  exists res,
    preprocess self rng k (sample_rate, raw) = Some (Ok res) /\
    fst (returned res) == 0 /\ snd (returned res) == 1 /\
    written_rate res = sample_rate /\
    length (written_data res) = length raw.
Proof.
  intros Hclean Hw Hs.
  destruct (preprocess_clean self rng k sample_rate raw Hclean Hw Hs)
    as (peak & nf & m & st & _ & _ & _ & Hnf & Hm & Hst & Hrun).
  eexists. split; [exact Hrun |]. simpl.
  split; [exact Hnf |]. split; [exact Hm |]. split; [reflexivity |].
  destruct (adjust_amplitude_indexed self rng k
              ((fun x => inject_Z x / inject_Z peak) <$> raw) nf m)
    as (st' & Hst' & Hlen & _).
  rewrite Hst in Hst'. injection Hst' as <-.
  now rewrite length_fmap, Hlen, length_fmap.
Qed.

Lemma preprocess_returns_zero_and_one_witness :
  exists res,
    preprocess defopts (fun _ => 1 # 2) 0
      (100%Z, [0; 0; 0; 0; 0; 0; 300; -200; 16000; -32000; 8000; 0]%Z)
    = Some (Ok res) /\
    fst (returned res) == 0 /\ snd (returned res) == 1 /\
    written_rate res = 100%Z /\
    length (written_data res)
    = length [0; 0; 0; 0; 0; 0; 300; -200; 16000; -32000; 8000; 0]%Z.
Proof.
  apply preprocess_returns_zero_and_one.
  - split.
    + repeat constructor; discriminate.
    + do 6 apply Exists_cons_tl. apply Exists_cons_hd. discriminate.
  - vm_compute. discriminate.
  - vm_compute. discriminate.
Defined.

Lemma qualifying_normalised (nf : Q) (peak : Z) (l : list Z) :
  nf == 0 -> (0 < peak)%Z ->
  qualifying nf ((fun x => inject_Z x / inject_Z peak) <$> l) = nonzero_count l.
Proof.
  intros Hnf Hp. unfold qualifying, nonzero_count.
  induction l as [|x l IH]; [reflexivity |].
  cbn [fmap list_fmap List.filter].
  change (list_fmap Z Q (fun x => inject_Z x / inject_Z peak) l)
    with ((fun x => inject_Z x / inject_Z peak) <$> l).
  rewrite (qualifies_normalised nf peak x Hnf Hp).
  destruct (negb (x =? 0)%Z); simpl; now rewrite IH.
Qed.

Lemma np_int16_in_range (q : Q) :
  Qabs q <= 32767 ->
  exists n, np_int16 (Fin q) = Some n /\ n = py_int q /\ (Z.abs n <= 32767)%Z.
Proof.
  intros Hq. pose proof (py_int_abs_le q 32767 Hq) as Hn.
  exists (py_int q). split; [| now split].
  unfold np_int16.
  destruct (Z.leb_spec (-32768) (py_int q)); [| lia].
  destruct (Z.leb_spec (py_int q) 32767); [reflexivity | lia].
Qed.

Lemma np_int16_out_of_range (q : Q) :
  32768 <= q \/ q <= -32769 -> np_int16 (Fin q) = None.
Proof.
  intros Hq. unfold np_int16.
  destruct (py_int_sign q) as [Hp Hn].
  destruct Hq as [Hq | Hq].
  - assert (32768 <= Z.abs (py_int q))%Z.
    { apply py_int_abs_ge. rewrite Qabs_pos by lra. exact Hq. }
    assert (0 <= py_int q)%Z by (apply Hp; lra).
    destruct (Z.leb_spec (py_int q) 32767); [lia |].
    now rewrite andb_false_r.
  - assert (32769 <= Z.abs (py_int q))%Z.
    { apply py_int_abs_ge. rewrite Qabs_neg by lra.
      change (inject_Z 32769) with 32769. lra. }
    assert (py_int q <= 0)%Z by (apply Hn; lra).
    destruct (Z.leb_spec (-32768) (py_int q)); [lia | reflexivity].
Qed.

(** X18. With [random()] in [0, 1] and a range 0 < lo <= hi <= 1 (the jitter
    only attenuates), every sample that [preprocess] writes for a clean file
    is a proper int16 of magnitude at most 32767, and never of the sign
    opposite to the raw sample: a raw sample that is not negative is written
    as an integer that is not negative, one that is not positive as an
    integer that is not positive (a small sample may be written as 0). *)
Theorem preprocess_writes_int16 (self : AudioPreprocessor) (rng : nat -> Q)
    (k : nat) (sample_rate : Z) (raw : list Z) :
  clean_pcm raw ->
  (1 <= window_size self sample_rate)%Z ->
  (1 <= skip_size self sample_rate)%Z ->
  (forall d, 0 <= rng d <= 1) ->
  0 < fst (amplitude_adjust_range self) ->
  fst (amplitude_adjust_range self) <= snd (amplitude_adjust_range self) ->
  snd (amplitude_adjust_range self) <= 1 ->
  exists res,
    preprocess self rng k (sample_rate, raw) = Some (Ok res) /\
    forall j x, raw !! j = Some x ->
      exists n, written_data res !! j = Some (Some n) /\
                (Z.abs n <= 32767)%Z /\
                ((0 <= x)%Z -> (0 <= n)%Z) /\ ((x <= 0)%Z -> (n <= 0)%Z).
Proof.
  intros Hclean Hw Hs Hrng Hlo Hrange Hhi.
  destruct (preprocess_clean self rng k sample_rate raw Hclean Hw Hs)
    as (peak & nf & m & st & Hpos & Hall & _ & Hnf & Hm & Hst & Hrun).
  eexists. split; [exact Hrun |]. simpl. intros j x Hj.
  destruct (adjust_amplitude_sign_scale self rng k
              ((fun x => inject_Z x / inject_Z peak) <$> raw) nf m
              Hrng Hlo Hrange) as (st' & Hst' & Hsamples).
  rewrite Hst in Hst'. injection Hst' as <-.
  destruct (Hsamples j (inject_Z x / inject_Z peak))
    as (o & Ho & Hp & Hn & Hz & _ & Hle).
  { now rewrite list_lookup_fmap, Hj. }
  rewrite Forall_forall in Hall.
  destruct (normalised_bounds x peak Hpos) as [Hs1 _];
    [apply Hall; eapply list_elem_of_lookup_2; exact Hj |].
  assert (Hpq : 0 < inject_Z peak) by (rewrite (Zlt_Qlt 0 peak) in Hpos; exact Hpos).
  assert (Ho1 : Qabs o <= 1).
  { rewrite (Q.max_l 1 _ Hhi) in Hle. lra. }
  destruct (np_int16_in_range (o * 32767)) as (n & Hcast & Hn_eq & Hn_abs).
  { rewrite Qabs_Qmult. change (Qabs 32767) with 32767. lra. }
  exists n. split; [| split; [exact Hn_abs |]].
  - rewrite list_lookup_fmap, Ho. simpl. now rewrite <- Hcast.
  - assert (Hsx : (0 <= x)%Z -> 0 <= inject_Z x / inject_Z peak).
    { intros Hx. apply Qle_shift_div_l; [exact Hpq |].
      rewrite Zle_Qle in Hx. change (inject_Z 0) with 0 in Hx. lra. }
    assert (Hsx' : (x <= 0)%Z -> inject_Z x / inject_Z peak <= 0).
    { intros Hx. apply Qle_shift_div_r; [exact Hpq |].
      rewrite Zle_Qle in Hx. change (inject_Z 0) with 0 in Hx. lra. }
    destruct (py_int_sign (o * 32767)) as [Hip Hin]. subst n.
    split; intros Hx.
    + apply Hip. specialize (Hsx Hx).
      destruct (Qle_lt_or_eq _ _ Hsx) as [Hlt | Heq].
      * specialize (Hp Hlt). lra.
      * rewrite (Hz (Qeq_sym _ _ Heq)). lra.
    + apply Hin. specialize (Hsx' Hx).
      destruct (Qle_lt_or_eq _ _ Hsx') as [Hlt | Heq].
      * specialize (Hn Hlt). lra.
      * rewrite (Hz Heq). lra.
Qed.

Lemma preprocess_writes_int16_witness :
  exists res,
    preprocess
      {| win_nfloor_s := 0.05; win_skip_s := 0.02; nfloor_max_frac := 0.1;
         smooth_amp_frac := 0.1; amplitude_adjust_range := (0.8, 1) |}
      (fun _ => 1 # 2) 0
      (100%Z, [0; 0; 0; 0; 0; 0; 300; -200; 16000; -32000; 8000; 0]%Z)
    = Some (Ok res) /\
    forall j x,
      [0; 0; 0; 0; 0; 0; 300; -200; 16000; -32000; 8000; 0]%Z !! j = Some x ->
      exists n, written_data res !! j = Some (Some n) /\
                (Z.abs n <= 32767)%Z /\
                ((0 <= x)%Z -> (0 <= n)%Z) /\ ((x <= 0)%Z -> (n <= 0)%Z).
Proof.
  apply preprocess_writes_int16.
  - split.
    + repeat constructor; discriminate.
    + do 6 apply Exists_cons_tl. apply Exists_cons_hd. discriminate.
  - vm_compute. discriminate.
  - vm_compute. discriminate.
  - intros d. split; vm_compute; discriminate.
  - reflexivity.
  - vm_compute. discriminate.
  - vm_compute. discriminate.
Defined.

(** The sign is not strict: the raw samples 1 and -1 beside a peak of 32767
    are attenuated below one step of the int16 scale and written as 0. *)
Lemma small_sample_written_as_zero :
  exists res,
    preprocess
      {| win_nfloor_s := 0.05; win_skip_s := 0.02; nfloor_max_frac := 0.1;
         smooth_amp_frac := 0.1; amplitude_adjust_range := (0.8, 1) |}
      (fun _ => 1 # 2) 0
      (100%Z, [0; 0; 0; 0; 0; 0; 1; -1; 32767]%Z)
    = Some (Ok res) /\
    written_data res = [Some 0; Some 0; Some 0; Some 0; Some 0; Some 0;
                        Some 0; Some 0; Some 29490]%Z.
Proof. eexists. split; vm_compute; reflexivity. Qed.

(** X19. The loudest sample of a clean file can leave the int16 range: with
    0 <= smooth_amp_frac <= 1 it is multiplied by exactly its draw r (the
    draw whose number is [k] plus the count of non-zero samples before it),
    so that, once 32767 * r reaches 32768 (32769 for a negative sample), the
    value handed to [np.int16] is not an int16 any more. *)
Theorem preprocess_peak_overflows (self : AudioPreprocessor) (rng : nat -> Q)
    (k : nat) (sample_rate : Z) (raw : list Z) (j : nat) (x : Z) :
  clean_pcm raw ->
  (1 <= window_size self sample_rate)%Z ->
  (1 <= skip_size self sample_rate)%Z ->
  0 <= smooth_amp_frac self -> smooth_amp_frac self <= 1 ->
  raw !! j = Some x ->
  Forall (fun y => (Z.abs y <= Z.abs x)%Z) raw ->
  inject_Z (if (0 <? x)%Z then 32768 else 32769)
  <= 32767 * uniform (rng (k + nonzero_count (take j raw))%nat)
               (amplitude_adjust_range self) ->
  exists res,
    preprocess self rng k (sample_rate, raw) = Some (Ok res) /\
    written_data res !! j = Some None.
Proof.
  intros Hclean Hw Hs Hf0 Hf1 Hj Hpeak Hr.
  destruct (preprocess_clean self rng k sample_rate raw Hclean Hw Hs)
    as (peak & nf & m & st & Hpos & Hall & Hatt & Hnf & Hm & Hst & Hrun).
  eexists. split; [exact Hrun |]. simpl.
  assert (Hx : Z.abs x = peak).
  { apply Exists_exists in Hatt as (y & Hy & Hyp).
    rewrite Forall_forall in Hall, Hpeak.
    specialize (Hall x (list_elem_of_lookup_2 _ _ _ Hj)).
    specialize (Hpeak y Hy). lia. }
  assert (Hpq : 0 < inject_Z peak) by (rewrite (Zlt_Qlt 0 peak) in Hpos; exact Hpos).
  set (s := inject_Z x / inject_Z peak).
  assert (Hs1 : Qabs s == 1).
  { destruct (normalised_bounds x peak Hpos) as [_ H1]; [lia | exact (H1 Hx)]. }
  destruct (adjust_amplitude_indexed self rng k
              ((fun x => inject_Z x / inject_Z peak) <$> raw) nf m)
    as (st' & Hst' & _ & _ & Hsamples).
  rewrite Hst in Hst'. injection Hst' as <-.
  specialize (Hsamples j s).
  rewrite list_lookup_fmap, Hj in Hsamples. specialize (Hsamples eq_refl).
  assert (Hqual : qualifies nf s = true) by (apply Qlt_bool_iff; lra).
  rewrite Hqual in Hsamples. unfold jittered in Hsamples.
  rewrite transition_factor_full in Hsamples; [| lra | exact Hf0 | lra | nra].
  rewrite <- fmap_take, (qualifying_normalised nf peak _ Hnf Hpos) in Hsamples.
  rewrite list_lookup_fmap, Hsamples. simpl. f_equal.
  set (r := uniform (rng (k + nonzero_count (take j raw))%nat)
              (amplitude_adjust_range self)) in *.
  apply np_int16_out_of_range.
  destruct (Z.ltb_spec 0 x) as [Hxp | Hxn].
  - left. assert (Hsv : s == 1).
    { unfold s. rewrite <- Hx, Z.abs_eq by lia. field. rewrite <- Hx in Hpq.
      rewrite Z.abs_eq in Hpq by lia. lra. }
    change (inject_Z 32768) with 32768 in Hr. rewrite Hsv. lra.
  - right. assert (Hsv : s == -1).
    { unfold s. replace x with (- peak)%Z by lia.
      rewrite inject_Z_opp. field. lra. }
    change (inject_Z 32769) with 32769 in Hr. rewrite Hsv. lra.
Qed.

Lemma preprocess_peak_overflows_witness :
  exists res,
    preprocess defopts (fun _ => 3 # 4) 0
      (100%Z, [0; 0; 0; 0; 0; 0; 300; -200; 16000; -32000; 8000; 0]%Z)
    = Some (Ok res) /\
    written_data res !! 9%nat = Some None.
Proof.
  apply (preprocess_peak_overflows defopts (fun _ => 3 # 4) 0 100
           [0; 0; 0; 0; 0; 0; 300; -200; 16000; -32000; 8000; 0]%Z 9 (-32000)).
  - split.
    + repeat constructor; discriminate.
    + do 6 apply Exists_cons_tl. apply Exists_cons_hd. discriminate.
  - vm_compute. discriminate.
  - vm_compute. discriminate.
  - vm_compute. discriminate.
  - vm_compute. discriminate.
  - reflexivity.
  - repeat constructor; vm_compute; discriminate.
  - vm_compute. discriminate.
Defined.
